(** * The search query builder (QueryBuilder/index.ts)

    A shallow embedding of the module that compiles a FHIR search request
    into an Elasticsearch boolean query, and the properties its
    specification states about it.

    JavaScript values of type [any] are embedded as the inductive [JSValue];
    strings are [string] (the scan only ever compares single code units with
    the backslash and the comma); exceptions are an explicit [Result]; the
    registry look-ups performed by a run are recorded in a log. *)

From Stdlib Require Import String Ascii List Arith ZArith Bool Lia.
Import ListNotations.
Local Open Scope string_scope.
Local Open Scope list_scope.
Local Open Scope nat_scope.

(* ================================================================= *)
(** ** JavaScript strings *)

Module JS.

(** [s.length] *)
Definition length (s : string) : nat := String.length s.

(** [s[i]]: the code unit at index [i], [None] standing for [undefined]. *)
Definition charAt (s : string) (i : nat) : option ascii := String.get i s.

(** [x === '<ch>'] for an indexed character [x]. *)
Definition is_char (x : option ascii) (ch : ascii) : bool :=
  match x with
  | Some a => Ascii.eqb a ch
  | None => false
  end.

(** [s.substring(start, end)]: both indices are clamped to the length and
    swapped when [start > end]. *)
Definition substring (s : string) (start end_ : nat) : string :=
  let a := Nat.min start (length s) in
  let b := Nat.min end_ (length s) in
  String.substring (Nat.min a b) (Nat.max a b - Nat.min a b) s.

(** [s.substring(start)] *)
Definition substringFrom (s : string) (start : nat) : string :=
  substring s start (length s).

(** [s.includes(t)] *)
Fixpoint includes (s t : string) : bool :=
  String.prefix t s ||
  match s with
  | EmptyString => false
  | String _ s' => includes s' t
  end.

(** [arr.includes(x)] on an array of strings. *)
Definition array_includes (arr : list string) (x : string) : bool :=
  existsb (String.eqb x) arr.

End JS.

Definition backslash : ascii := "\"%char.
Definition comma : ascii := ","%char.

(* ================================================================= *)
(** ** The value splitter: the first loop of [searchParamQuery] *)

(** The state the loop works on: the (mutated) [searchValue], the segment
    start [lastIndex] and the array [splitSearchValue]. The loop counter is
    passed separately. *)
Record SplitState : Type := mkSplit {
  searchValue : string;
  lastIndex : nat;
  splitSearchValue : list string
}.

(** One run of the loop body at counter [c]. *)
Definition split_body (st : SplitState) (c : nat) : SplitState :=
  let sv := searchValue st in
  if JS.is_char (JS.charAt sv c) backslash then
    if (c + 1 <? JS.length sv) && JS.is_char (JS.charAt sv (c + 1)) comma then
      mkSplit (JS.substring sv 0 c ++ JS.substringFrom sv (c + 1))%string
              (lastIndex st) (splitSearchValue st)
    else st
  else if JS.is_char (JS.charAt sv c) comma then
    mkSplit sv (c + 1) (splitSearchValue st ++ [JS.substring sv (lastIndex st) c])
  else st.

(** [for (let c = ...; c < searchValue.length; c++) body]: the guard reads
    the current length at every round. [fuel] bounds the number of rounds. *)
Fixpoint split_loop (fuel : nat) (st : SplitState) (c : nat) : option SplitState :=
  if c <? JS.length (searchValue st) then
    match fuel with
    | O => None
    | S fuel' => split_loop fuel' (split_body st c) (c + 1)
    end
  else Some st.

(** Lines 73-86: the scan followed by the push of the trailing segment.
    The loop makes at most [searchValue.length] rounds; [None] would mean
    that bound was not enough. *)
Definition splitOrValues_opt (v : string) : option (list string) :=
  match split_loop (JS.length v) (mkSplit v 0 []) 0 with
  | Some st =>
      Some (splitSearchValue st ++ [JS.substringFrom (searchValue st) (lastIndex st)])
  | None => None
  end.

(** The array [splitSearchValue] after line 86. The default is never used:
    the scan always ends within its bound (see [splitOrValues_opt_segments]). *)
Definition splitOrValues (v : string) : list string :=
  match splitOrValues_opt v with
  | Some l => l
  | None => []
  end.

(* ================================================================= *)
(** ** Values, errors and the registry interface *)

(** A JavaScript value of type [any], as far as this module builds or
    inspects one. Numbers are the integral ones; the module itself never
    builds a number. An object is the list of its own enumerable properties
    in [Object.entries] order. *)
#[warning="-register-all"] Inductive JSValue : Type :=
| JUndefined
| JNull
| JBool (b : bool)
| JNum (n : Z)
| JStr (s : string)
| JArr (elems : list JSValue)
| JObj (props : list (string * JSValue)).

(** The one exception class the module throws. *)
Inductive Error : Type :=
| InvalidSearchParameterError (message : string).

Inductive Result (A : Type) : Type :=
| Ok (a : A)
| Throw (e : Error).
Arguments Ok {A} a.
Arguments Throw {A} e.

(** Modelled from the spec: the declaration of [CompiledSearchParam] lives in
    the registry module, which is not part of the sources at hand. The
    descriptor is opaque to the query builder ([descriptor]) but for its
    optional condition, a triple of strings of which the code reads the
    components 0 and 2. *)
Record CompiledSearchParam : Type := mkCompiled {
  descriptor : JSValue;
  condition : option (string * string * string)
}.

(** Modelled from the spec: [SearchParam], declared next to
    [CompiledSearchParam]; the fields the query builder reads. The type is
    kept a string, as the [switch] over it has a [default] branch. *)
Record SearchParam : Type := mkSearchParam {
  name : string;
  type : string;
  compiled : list CompiledSearchParam
}.

(** [FHIRSearchParametersRegistry]: the one method the module calls;
    [None] stands for [undefined]. *)
Record FHIRSearchParametersRegistry : Type := mkRegistry {
  getSearchParameter : string -> string -> option SearchParam
}.

(** [TypeSearchRequest], the two fields that are destructured. [queryParams]
    is an object, given by its own entries in [Object.entries] order; an own
    key [__proto__] (as [JSON.parse] creates one) is an entry like any
    other. *)
Record TypeSearchRequest : Type := mkRequest {
  resourceType : string;
  queryParams : list (string * JSValue)
}.

(** The six imported query constructors ([./typeQueries/...]). *)
Class TypeQueries : Type := {
  stringQuery : CompiledSearchParam -> string -> JSValue;
  dateQuery : CompiledSearchParam -> string -> JSValue;
  tokenQuery : CompiledSearchParam -> string -> JSValue;
  numberQuery : CompiledSearchParam -> string -> JSValue;
  quantityQuery : CompiledSearchParam -> string -> JSValue;
  referenceQuery : CompiledSearchParam -> string -> JSValue
}.

(* ================================================================= *)
(** ** Running a request: exceptions and the log of registry look-ups *)

(** A registry look-up: the resource type and the parameter asked for. *)
Definition Lookup : Type := (string * string)%type.

(** A computation that may throw and that records, in order, the registry
    look-ups it made before returning or throwing. *)
Definition M (A : Type) : Type := (list Lookup * Result A)%type.

Definition ret {A} (a : A) : M A := ([], Ok a).
Definition throw {A} (e : Error) : M A := ([], Throw e).
Definition lift {A} (r : Result A) : M A := ([], r).

Definition bind {A B} (m : M A) (k : A -> M B) : M B :=
  match m with
  | (log, Ok a) => let '(log', r) := k a in (log ++ log', r)
  | (log, Throw e) => (log, Throw e)
  end.

Notation "x <- m ;; k" := (bind m (fun x => k))
  (at level 61, m at next level, right associativity).

Definition lookups {A} (m : M A) : list Lookup := fst m.
Definition outcome {A} (m : M A) : Result A := snd m.

(** [registry.getSearchParameter(resourceType, name)], logged. *)
Definition lookupSearchParameter (registry : FHIRSearchParametersRegistry)
    (rt p : string) : M (option SearchParam) :=
  ([(rt, p)], Ok (getSearchParameter registry rt p)).

(** [arr.flatMap(f)] for a callback that may throw: the callback runs on the
    elements in order and its arrays are concatenated. *)
Fixpoint flatMapM {A B} (f : A -> M (list B)) (l : list A) : M (list B) :=
  match l with
  | [] => ret []
  | a :: l' =>
      bs <- f a ;;
      rest <- flatMapM f l' ;;
      ret (bs ++ rest)
  end.

(* ================================================================= *)
(** ** Plain string-keyed objects *)

(** The write of an own data property on an object given by its entries: an
    existing key keeps its place, a new key goes last. *)
Fixpoint define_own {V} (k : string) (v : V) (o : list (string * V))
    : list (string * V) :=
  match o with
  | [] => [(k, v)]
  | (k', v') :: o' =>
      if String.eqb k' k then (k', v) :: o' else (k', v') :: define_own k v o'
  end.

(** The name of the accessor property that [Object.prototype] carries. *)
Definition proto_key : string := "__proto__".

(** [obj[k] = v] on an object made by the literal [{}], for a value that is
    an array. Under the key [__proto__] the assignment runs the setter the
    object inherits from [Object.prototype]: the array becomes the prototype
    of the object and no own property is created, so [Object.entries] never
    lists the key. Under every other key the assignment creates or
    overwrites an own property (what the object inherits, from
    [Object.prototype] or from an array that has become its prototype, are
    writable data properties). The prototype is read by nothing in this
    module and is left out of the model. *)
Definition obj_set {V} (k : string) (v : V) (o : list (string * V))
    : list (string * V) :=
  if String.eqb k proto_key then o else define_own k v o.

Fixpoint obj_get {V} (k : string) (o : list (string * V)) : option V :=
  match o with
  | [] => None
  | (k', v') :: o' => if String.eqb k' k then Some v' else obj_get k o'
  end.

(* ================================================================= *)
(** ** The functions of the module *)

Section QueryBuilder.

Context {TQ : TypeQueries}.

(** The constant [NON_SEARCHABLE_PARAMETERS] is imported from [../constants],
    which is not among the sources: it is a parameter here. *)
Variable NON_SEARCHABLE_PARAMETERS : list string.

(** Lines 21-46: the [switch] over [searchParam.type]. *)
Definition typeQuery (searchParam : SearchParam)
    (compiledSearchParam : CompiledSearchParam) (searchValue : string) : JSValue :=
  let t := type searchParam in
  if String.eqb t "string" then stringQuery compiledSearchParam searchValue
  else if String.eqb t "date" then dateQuery compiledSearchParam searchValue
  else if String.eqb t "token" then tokenQuery compiledSearchParam searchValue
  else if String.eqb t "number" then numberQuery compiledSearchParam searchValue
  else if String.eqb t "quantity" then quantityQuery compiledSearchParam searchValue
  else if String.eqb t "reference" then referenceQuery compiledSearchParam searchValue
  else stringQuery compiledSearchParam searchValue.

(** The [multi_match] clause of lines 57-63. *)
Definition multiMatch (field matchValue : string) : JSValue :=
  JObj [("multi_match",
         JObj [("fields", JArr [JStr field; JStr (field ++ ".*")%string]);
               ("query", JStr matchValue);
               ("lenient", JBool true)])].

Definition typeQueryWithConditions (searchParam : SearchParam)
    (compiledSearchParam : CompiledSearchParam) (searchValue : string) : JSValue :=
  let tq := typeQuery searchParam compiledSearchParam searchValue in
  match condition compiledSearchParam with
  | Some (c0, _, c2) =>
      JObj [("bool", JObj [("must", JArr [tq; multiMatch c0 c2])])]
  | None => tq
  end.

(** Lines 88-93: one array per alternative, holding the query of every
    compiled descriptor for it. *)
Definition queryList (searchParam : SearchParam) (alternatives : list string)
    : list JSValue :=
  map (fun alternative =>
         JArr (map (fun c => typeQueryWithConditions searchParam c alternative)
                   (compiled searchParam)))
      alternatives.

(** Lines 71-105. The statement [queryList.join();] of line 95 computes a
    string that is dropped, and leaves [queryList] as it is. *)
Definition searchParamQuery (searchParam : SearchParam) (searchValue : string)
    : JSValue :=
  let ql := queryList searchParam (splitOrValues searchValue) in
  if List.length ql =? 1 then nth 0 ql JUndefined
  else JObj [("bool", JObj [("should", JArr ql)])].

(** [Array.isArray(v) && v.every(s => typeof s === 'string')], returning the
    strings. *)
Fixpoint all_strings (l : list JSValue) : option (list string) :=
  match l with
  | [] => Some []
  | JStr s :: l' =>
      match all_strings l' with
      | Some ss => Some (s :: ss)
      | None => None
      end
  | _ :: _ => None
  end.

(** The callback of the [forEach] of lines 110-123 on one entry: the
    sequence stored under the key, or the exception. *)
Definition normalizeValue (searchParameter : string) (searchValue : JSValue)
    : Result (list string) :=
  match searchValue with
  | JStr s => Ok [s]
  | JArr l =>
      match all_strings l with
      | Some ss => Ok ss
      | None =>
          Throw (InvalidSearchParameterError
                   ("Invalid search parameter: '" ++ searchParameter ++ "'")%string)
      end
  | _ =>
      Throw (InvalidSearchParameterError
               ("Invalid search parameter: '" ++ searchParameter ++ "'")%string)
  end.

Fixpoint normalizeEntries (entries : list (string * JSValue))
    (normalizedQueryParams : list (string * list string))
    : Result (list (string * list string)) :=
  match entries with
  | [] => Ok normalizedQueryParams
  | (searchParameter, searchValue) :: rest =>
      match normalizeValue searchParameter searchValue with
      | Ok values =>
          normalizeEntries rest (obj_set searchParameter values normalizedQueryParams)
      | Throw e => Throw e
      end
  end.

Definition normalizeQueryParams (queryParams : list (string * JSValue))
    : Result (list (string * list string)) :=
  normalizeEntries queryParams [].

(** The predicate of the [filter] of line 134. *)
Definition searchable (entry : string * list string) : bool :=
  negb (JS.array_includes NON_SEARCHABLE_PARAMETERS (fst entry)).

(** The callback of the [flatMap] of lines 135-143. *)
Definition searchEntryQuery (registry : FHIRSearchParametersRegistry)
    (resourceType : string) (entry : string * list string) : M (list JSValue) :=
  let '(searchParameter, searchValues) := entry in
  fhirSearchParam <- lookupSearchParameter registry resourceType searchParameter ;;
  match fhirSearchParam with
  | None =>
      throw (InvalidSearchParameterError
               ("Invalid search parameter '" ++ searchParameter
                  ++ "' for resource type " ++ resourceType)%string)
  | Some sp => ret (map (searchParamQuery sp) searchValues)
  end.

Definition searchRequestQuery (registry : FHIRSearchParametersRegistry)
    (request : TypeSearchRequest) : M (list JSValue) :=
  normalized <- lift (normalizeQueryParams (queryParams request)) ;;
  flatMapM (searchEntryQuery registry (resourceType request))
           (filter searchable normalized).

(** The exported function; a missing third argument defaults to [[]]. *)
Definition buildQueryForAllSearchParameters (registry : FHIRSearchParametersRegistry)
    (request : TypeSearchRequest) (additionalFilters : option (list JSValue))
    : M JSValue :=
  let filters := match additionalFilters with Some f => f | None => [] end in
  must <- searchRequestQuery registry request ;;
  ret (JObj [("bool", JObj [("filter", JArr filters); ("must", JArr must)])]).

End QueryBuilder.

(* ================================================================= *)
(** ** The vocabulary of the specification *)

Definition starts_with_comma (s : string) : bool :=
  match s with
  | String ch _ => Ascii.eqb ch comma
  | EmptyString => false
  end.

(** Single-level unescape: each backslash immediately preceding a comma is
    removed, the comma is kept. *)
Fixpoint unescape (s : string) : string :=
  match s with
  | EmptyString => EmptyString
  | String ch s' =>
      if Ascii.eqb ch backslash && starts_with_comma s' then unescape s'
      else String ch (unescape s')
  end.

(** The number of unescaped commas: the commas that are not immediately
    preceded by a backslash. [after_backslash] tells whether the character
    before [s] is one. *)
Fixpoint unescaped_commas_from (after_backslash : bool) (s : string) : nat :=
  match s with
  | EmptyString => 0
  | String ch s' =>
      (if Ascii.eqb ch comma && negb after_backslash then 1 else 0)
      + unescaped_commas_from (Ascii.eqb ch backslash) s'
  end.

Definition unescaped_commas (s : string) : nat := unescaped_commas_from false s.

(** A value that is a string or an array of strings only. *)
Definition well_formed_value (v : JSValue) : bool :=
  match v with
  | JStr _ => true
  | JArr l => match all_strings l with Some _ => true | None => false end
  | _ => false
  end.

(** The strings a well-formed value stands for, in order. *)
Fixpoint strings_of_elems (l : list JSValue) : list string :=
  match l with
  | [] => []
  | JStr s :: l' => s :: strings_of_elems l'
  | _ :: l' => strings_of_elems l'
  end.

Definition strings_of (v : JSValue) : list string :=
  match v with
  | JStr s => [s]
  | JArr l => strings_of_elems l
  | _ => []
  end.

(** The (parameter, value) pairs of normalized query parameters, in entry
    order and, within an entry, in value order. *)
Definition value_pairs (n : list (string * list string)) : list (string * string) :=
  flat_map (fun entry => map (pair (fst entry)) (snd entry)) n.

(** The registry knows the parameter of the entry for the resource type. *)
Definition resolved (registry : FHIRSearchParametersRegistry) (rt : string)
    (entry : string * list string) : bool :=
  match getSearchParameter registry rt (fst entry) with
  | Some _ => true
  | None => false
  end.

(** The queries of one resolved entry: one per value, in order. *)
Definition entryQueries {TQ : TypeQueries} (registry : FHIRSearchParametersRegistry)
    (rt : string) (entry : string * list string) : list JSValue :=
  match getSearchParameter registry rt (fst entry) with
  | Some sp => map (searchParamQuery sp) (snd entry)
  | None => []
  end.

(** The message names the string: it occurs in it. *)
Definition mentions (msg s : string) : Prop := JS.includes msg s = true.

(** The alternatives of a value by one forward pass over its characters,
    with no index and no mutation: the reference the loop is compared to. *)
Definition push_front (ch : ascii) (l : list string) : list string :=
  match l with
  | [] => [String ch EmptyString]
  | h :: t => String ch h :: t
  end.

Fixpoint segments (s : string) : list string :=
  match s with
  | EmptyString => [EmptyString]
  | String ch s' =>
      if Ascii.eqb ch backslash then
        match s' with
        | String ch' s'' =>
            if Ascii.eqb ch' comma then push_front comma (segments s'')
            else push_front ch (segments s')
        | EmptyString => push_front ch (segments s')
        end
      else if Ascii.eqb ch comma then EmptyString :: segments s'
      else push_front ch (segments s')
  end.

(** [s] without its first [n] characters. *)
Fixpoint sdrop (n : nat) (s : string) : string :=
  match n, s with
  | O, _ => s
  | S n', EmptyString => EmptyString
  | S n', String _ s' => sdrop n' s'
  end.

(** [p] put in front of the first segment. *)
Definition attach (p : string) (l : list string) : list string :=
  match l with
  | [] => [p]
  | h :: t => (p ++ h)%string :: t
  end.

(** The result the loop state stands for once the trailing segment is
    pushed (line 86). *)
Definition finish (st : SplitState) : list string :=
  splitSearchValue st ++ [JS.substringFrom (searchValue st) (lastIndex st)].

(** The array line 90 builds for one alternative: the query of every
    compiled descriptor for it. *)
Definition alternativeQueries {TQ : TypeQueries} (sp : SearchParam)
    (alternative : string) : JSValue :=
  JArr (map (fun c => typeQueryWithConditions sp c alternative) (compiled sp)).

(** [alternatives.join(',')] *)
Fixpoint join_comma (l : list string) : string :=
  match l with
  | [] => EmptyString
  | [a] => a
  | a :: rest => (a ++ String comma (join_comma rest))%string
  end.

(** The last character of the string is a backslash. *)
Fixpoint ends_with_backslash (s : string) : bool :=
  match s with
  | EmptyString => false
  | String ch EmptyString => Ascii.eqb ch backslash
  | String _ s' => ends_with_backslash s'
  end.

(** The character occurs in the string. *)
Fixpoint has_char (ch : ascii) (s : string) : bool :=
  match s with
  | EmptyString => false
  | String ch' s' => Ascii.eqb ch' ch || has_char ch s'
  end.

(** The entry is kept by the filter of line 134 (on raw entries). *)
Definition searchable_key (NON_SEARCHABLE_PARAMETERS : list string)
    (entry : string * JSValue) : bool :=
  negb (JS.array_includes NON_SEARCHABLE_PARAMETERS (fst entry)).

(** The value is the empty array. *)
Definition is_empty_array (v : JSValue) : bool :=
  match v with
  | JArr [] => true
  | _ => false
  end.

(** A normalized entry, read back as the query parameter it stands for. *)
Definition as_query_param (entry : string * list string) : string * JSValue :=
  (fst entry, JArr (map JStr (snd entry))).

(** The entry is stored by an assignment under its key: every key but
    [__proto__]. *)
Definition stored {V} (entry : string * V) : bool :=
  negb (String.eqb (fst entry) proto_key).

(** The entry reaches the [flatMap] of line 135: it is stored by the
    normalizer and kept by the filter of line 134. *)
Definition looked_up (NON_SEARCHABLE_PARAMETERS : list string)
    (entry : string * JSValue) : bool :=
  stored entry && searchable_key NON_SEARCHABLE_PARAMETERS entry.

(** The (parameter, value) pairs of the entries of a request that reach the
    [flatMap], in entry order and, within an entry, in value order. *)
Definition request_pairs (NON_SEARCHABLE_PARAMETERS : list string)
    (qp : list (string * JSValue)) : list (string * string) :=
  flat_map (fun e => map (pair (fst e)) (strings_of (snd e)))
           (filter (looked_up NON_SEARCHABLE_PARAMETERS) qp).

(** The normalized form of a well-formed entry. *)
Definition normalized_entry (entry : string * JSValue) : string * list string :=
  (fst entry, strings_of (snd entry)).

(* ================================================================= *)
(** ** A concrete setting to run the functions in *)

Module Demo.

(** Constructors that keep their tag, the descriptor and the value
    apart. *)
Definition leaf (tag : string) (c : CompiledSearchParam) (v : string) : JSValue :=
  JObj [(tag, JObj [("field", descriptor c); ("value", JStr v)])].

#[export] Instance queries : TypeQueries := {|
  stringQuery := leaf "string";
  dateQuery := leaf "date";
  tokenQuery := leaf "token";
  numberQuery := leaf "number";
  quantityQuery := leaf "quantity";
  referenceQuery := leaf "reference"
|}.

Definition nonSearchable : list string := ["_count"; "_format"].

Definition familyName : CompiledSearchParam :=
  mkCompiled (JStr "name.family") None.

Definition homeAddress : CompiledSearchParam :=
  mkCompiled (JStr "address.city") (Some ("address.use", "=", "home")).

Definition nameParam : SearchParam :=
  mkSearchParam "name" "string" [familyName].

Definition cityParam : SearchParam :=
  mkSearchParam "address-city" "string" [familyName; homeAddress].

(** A registry that knows [name] and [address-city] on [Patient]. *)
Definition registry : FHIRSearchParametersRegistry :=
  mkRegistry (fun rt p =>
    if String.eqb rt "Patient" then
      if String.eqb p "name" then Some nameParam
      else if String.eqb p "address-city" then Some cityParam
      else None
    else None).


(** [GET /Patient?name=Smith,Jones&_count=10] *)
Definition request : TypeSearchRequest :=
  mkRequest "Patient" [("name", JStr "Smith,Jones"); ("_count", JStr "10")].

(** [GET /Patient?foo=1] *)
Definition unknownRequest : TypeSearchRequest :=
  mkRequest "Patient" [("foo", JStr "1")].

(** [GET /Patient?foo=1&bar[key]=v], parsed by a router that builds nested
    objects. *)
Definition nestedRequest : TypeSearchRequest :=
  mkRequest "Patient" [("foo", JStr "1"); ("bar", JObj [("key", JStr "v")])].

(** [GET /Patient?foo=1&baz=2] *)
Definition twoUnknownRequest : TypeSearchRequest :=
  mkRequest "Patient" [("foo", JStr "1"); ("baz", JStr "2")].

End Demo.

(* ================================================================= *)
(** * Properties *)

(** ** Strings *)

Section StringFacts.

Lemma append_empty_r (s : string) : (s ++ EmptyString)%string = s.
Proof. induction s as [|ch s IH]; simpl; [reflexivity | now rewrite IH]. Qed.

Lemma append_assoc (a b c : string) :
  ((a ++ b) ++ c)%string = (a ++ (b ++ c))%string.
Proof. induction a as [|ch a IH]; simpl; [reflexivity | now rewrite IH]. Qed.

Lemma length_append (a b : string) :
  String.length (a ++ b) = String.length a + String.length b.
Proof. induction a as [|ch a IH]; simpl; [reflexivity | now rewrite IH]. Qed.

Lemma get_append_at (pre rest : string) (k : nat) :
  String.get (String.length pre + k) (pre ++ rest) = String.get k rest.
Proof. induction pre as [|ch pre IH]; simpl; [reflexivity | exact IH]. Qed.

Lemma substring_append_drop (pre rest : string) (n : nat) :
  n <= String.length pre ->
  String.substring n (String.length pre - n) (pre ++ rest) = sdrop n pre.
Proof.
  revert n. induction pre as [|ch pre IH]; intros n Hn; simpl in *.
  - assert (n = 0) by lia. subst n. now destruct rest.
  - destruct n as [|n]; simpl.
    + f_equal. specialize (IH 0 (Nat.le_0_l _)).
      rewrite Nat.sub_0_r in IH. exact IH.
    + apply IH. lia.
Qed.

Lemma sdrop_append (pre rest : string) (k : nat) :
  sdrop (String.length pre + k) (pre ++ rest) = sdrop k rest.
Proof. induction pre as [|ch pre IH]; simpl; [reflexivity | exact IH]. Qed.

Lemma sdrop_append_l (pre x : string) (n : nat) :
  n <= String.length pre -> sdrop n (pre ++ x) = (sdrop n pre ++ x)%string.
Proof.
  revert n. induction pre as [|ch pre IH]; intros n Hn; simpl in *.
  - assert (n = 0) by lia. now subst n.
  - destruct n as [|n]; simpl; [reflexivity | apply IH; lia].
Qed.

Lemma sdrop_all (s : string) : sdrop (String.length s) s = EmptyString.
Proof. induction s as [|ch s IH]; simpl; [reflexivity | exact IH]. Qed.

(** The three uses of [substring] in the loop, on a string cut at the loop
    counter. *)
Lemma js_substring_segment (pre rest : string) (li : nat) :
  li <= String.length pre ->
  JS.substring (pre ++ rest) li (String.length pre) = sdrop li pre.
Proof.
  intros Hli. unfold JS.substring, JS.length. rewrite length_append.
  rewrite (Nat.min_l li) by lia.
  rewrite (Nat.min_l (String.length pre)) by lia.
  rewrite Nat.min_l, Nat.max_r by lia.
  now apply substring_append_drop.
Qed.

Lemma js_substringFrom_drop (s : string) (li : nat) :
  li <= String.length s -> JS.substringFrom s li = sdrop li s.
Proof.
  intros Hli.
  pose proof (js_substring_segment s EmptyString li Hli) as H.
  rewrite append_empty_r in H. exact H.
Qed.

End StringFacts.

(* ================================================================= *)
(** ** The loop of the splitter computes [segments] *)

Section Splitter.

Lemma segments_nonempty (s : string) : segments s <> [].
Proof.
  assert (Hpush : forall ch l, push_front ch l <> []) by (intros ch [|h t]; discriminate).
  destruct s as [|ch s]; simpl; [discriminate|].
  destruct (Ascii.eqb ch backslash).
  - destruct s as [|ch' s']; [apply Hpush|].
    destruct (Ascii.eqb ch' comma); apply Hpush.
  - destruct (Ascii.eqb ch comma); [discriminate | apply Hpush].
Qed.

Lemma attach_push_front (p : string) (ch : ascii) (l : list string) :
  l <> [] ->
  attach p (push_front ch l) = attach (p ++ String ch EmptyString) l.
Proof.
  destruct l as [|h t]; [congruence|]. intros _. simpl.
  now rewrite append_assoc.
Qed.

Lemma attach_empty (l : list string) : l <> [] -> attach EmptyString l = l.
Proof. destruct l; [congruence | reflexivity]. Qed.

(** The character the loop counter points at. *)
Lemma charAt_counter (pre rest : string) (k : nat) :
  JS.charAt (pre ++ rest) (String.length pre + k) = String.get k rest.
Proof. apply get_append_at. Qed.

(** One round of the loop on a string cut at the counter. *)
Lemma split_body_at (pre : string) (ch : ascii) (rest : string) (li : nat)
    (acc : list string) :
  li <= String.length pre ->
  split_body (mkSplit (pre ++ String ch rest) li acc) (String.length pre) =
  if Ascii.eqb ch backslash then
    if starts_with_comma rest then mkSplit (pre ++ rest) li acc
    else mkSplit (pre ++ String ch rest) li acc
  else if Ascii.eqb ch comma then
    mkSplit (pre ++ String ch rest) (String.length pre + 1) (acc ++ [sdrop li pre])
  else mkSplit (pre ++ String ch rest) li acc.
Proof.
  intros Hli. unfold split_body. cbn [searchValue lastIndex splitSearchValue].
  pose proof (charAt_counter pre (String ch rest) 0) as H0.
  pose proof (charAt_counter pre (String ch rest) 1) as H1.
  rewrite Nat.add_0_r in H0. rewrite H0, H1. cbn [String.get JS.is_char].
  destruct (Ascii.eqb ch backslash).
  - unfold JS.length. rewrite length_append. cbn [String.length].
    replace (String.length pre + 1 <? String.length pre + S (String.length rest))
      with (negb (String.length rest =? 0)).
    2:{ destruct (Nat.ltb_spec (String.length pre + 1)
                  (String.length pre + S (String.length rest)));
        destruct (Nat.eqb_spec (String.length rest) 0); simpl; try reflexivity; lia. }
    destruct rest as [|ch' rest']; [reflexivity|].
    cbn [String.length Nat.eqb negb andb String.get starts_with_comma JS.is_char].
    destruct (Ascii.eqb ch' comma); [|reflexivity].
    f_equal. f_equal.
    + pose proof (js_substring_segment pre (String ch (String ch' rest')) 0
                    (Nat.le_0_l _)) as H.
      exact H.
    + rewrite js_substringFrom_drop by (rewrite length_append; simpl; lia).
      now rewrite sdrop_append.
  - destruct (Ascii.eqb ch comma); [|reflexivity].
    now rewrite js_substring_segment.
Qed.

Lemma split_loop_guard (fuel : nat) (st : SplitState) (c : nat) :
  JS.length (searchValue st) <= c -> split_loop fuel st c = Some st.
Proof.
  intros H. destruct fuel; simpl;
    destruct (Nat.ltb_spec c (JS.length (searchValue st))); try reflexivity; lia.
Qed.

Lemma split_loop_round (fuel : nat) (st : SplitState) (c : nat) :
  c < JS.length (searchValue st) ->
  split_loop (S fuel) st c = split_loop fuel (split_body st c) (c + 1).
Proof.
  intros H. simpl.
  destruct (Nat.ltb_spec c (JS.length (searchValue st))); [reflexivity | lia].
Qed.

(** The invariant of the loop: with the string cut at the counter into the
    part already scanned and the part to scan, the scan ends within
    [length rest] rounds and leaves the alternatives pushed so far, followed
    by the segments of the rest, the first of them prefixed with the open
    segment. *)
Lemma split_loop_segments (fuel : nat) :
  forall (pre rest : string) (li : nat) (acc : list string),
    String.length rest <= fuel ->
    li <= String.length pre ->
    option_map finish
      (split_loop fuel (mkSplit (pre ++ rest) li acc) (String.length pre))
    = Some (acc ++ attach (sdrop li pre) (segments rest)).
Proof.
  induction fuel as [|fuel IH]; intros pre rest li acc Hfuel Hli.
  - destruct rest as [|ch rest]; [|simpl in Hfuel; lia].
    rewrite split_loop_guard
      by (cbn [searchValue]; unfold JS.length; rewrite length_append; simpl; lia).
    cbn [option_map]. unfold finish. cbn [searchValue lastIndex splitSearchValue].
    rewrite append_empty_r, js_substringFrom_drop by exact Hli.
    simpl. now rewrite append_empty_r.
  - destruct rest as [|ch rest].
    + rewrite split_loop_guard
        by (cbn [searchValue]; unfold JS.length; rewrite length_append; simpl; lia).
      cbn [option_map]. unfold finish. cbn [searchValue lastIndex splitSearchValue].
      rewrite append_empty_r, js_substringFrom_drop by exact Hli.
      simpl. now rewrite append_empty_r.
    + rewrite split_loop_round
        by (cbn [searchValue]; unfold JS.length; rewrite length_append; simpl; lia).
      rewrite split_body_at by exact Hli.
      assert (Hcut : forall (x : ascii) (r : string),
                 (pre ++ String x r)%string
                 = ((pre ++ String x EmptyString) ++ r)%string)
        by (intros; now rewrite append_assoc).
      assert (Hlen : forall x : ascii,
                 String.length pre + 1
                 = String.length (pre ++ String x EmptyString))
        by (intros; rewrite length_append; reflexivity).
      simpl in Hfuel. cbn [segments].
      destruct (Ascii.eqb ch backslash) eqn:Hbs.
      * destruct rest as [|ch' rest']; cbn [starts_with_comma].
        -- rewrite Hcut, (Hlen ch), IH by (rewrite ?length_append; simpl; lia).
           rewrite sdrop_append_l by exact Hli.
           now rewrite attach_push_front by apply segments_nonempty.
        -- destruct (Ascii.eqb ch' comma) eqn:Hc.
           ++ apply Ascii.eqb_eq in Hc. subst ch'.
              rewrite (Hcut comma rest'), (Hlen comma), IH
                by (rewrite ?length_append; simpl in *; lia).
              rewrite sdrop_append_l by exact Hli.
              now rewrite attach_push_front by apply segments_nonempty.
           ++ rewrite Hcut, (Hlen ch), IH by (rewrite ?length_append; simpl in *; lia).
              rewrite sdrop_append_l by exact Hli.
              now rewrite attach_push_front by apply segments_nonempty.
      * destruct (Ascii.eqb ch comma) eqn:Hc.
        -- rewrite Hcut, (Hlen ch), IH by (rewrite ?length_append; simpl; lia).
           rewrite sdrop_all, attach_empty by apply segments_nonempty.
           rewrite <- app_assoc. simpl. now rewrite append_empty_r.
        -- rewrite Hcut, (Hlen ch), IH by (rewrite ?length_append; simpl; lia).
           rewrite sdrop_append_l by exact Hli.
           now rewrite attach_push_front by apply segments_nonempty.
Qed.

(** The scan never runs out of rounds, and the function returns the
    segments of its argument. *)
Lemma splitOrValues_opt_segments (v : string) :
  splitOrValues_opt v = Some (segments v).
Proof.
  unfold splitOrValues_opt.
  pose proof (split_loop_segments (JS.length v) EmptyString v 0 []
                (Nat.le_refl _) (Nat.le_refl _)) as H.
  simpl in H.
  destruct (split_loop (JS.length v) (mkSplit v 0 []) 0) as [st|];
    [|discriminate].
  simpl in H. injection H as H. unfold finish in H. rewrite H.
  now rewrite attach_empty by apply segments_nonempty.
Qed.

Lemma splitOrValues_segments (v : string) : splitOrValues v = segments v.
Proof. unfold splitOrValues. now rewrite splitOrValues_opt_segments. Qed.

End Splitter.

(* ================================================================= *)
(** ** Segments, unescaping and unescaped commas *)

Section Alternatives.

Lemma comma_not_backslash : Ascii.eqb comma backslash = false.
Proof. reflexivity. Qed.

(** Only a leading comma looks at the character before it. *)
Lemma unescaped_commas_from_start (b : bool) (s : string) :
  starts_with_comma s = false ->
  unescaped_commas_from b s = unescaped_commas s.
Proof.
  destruct s as [|ch s]; [reflexivity|]. simpl. intros H.
  unfold unescaped_commas. simpl. now rewrite H.
Qed.

Lemma starts_with_comma_append (l r : string) :
  starts_with_comma (l ++ String comma r) = false ->
  starts_with_comma l = false.
Proof. destruct l as [|ch l]; simpl; [discriminate | trivial]. Qed.

(** A value with no unescaped comma is one segment, its unescape. *)
Lemma segments_no_comma (n : nat) :
  forall s : string,
    String.length s <= n ->
    unescaped_commas s = 0 ->
    segments s = [unescape s].
Proof.
  induction n as [|n IH]; intros s Hlen Hc.
  - destruct s; [reflexivity | simpl in Hlen; lia].
  - destruct s as [|ch s]; [reflexivity|].
    simpl in Hlen. unfold unescaped_commas in Hc. simpl in Hc.
    rewrite andb_true_r in Hc. cbn [segments unescape].
    destruct (Ascii.eqb_spec ch backslash) as [->|Hbs].
    + change (Ascii.eqb backslash comma) with false in Hc. simpl in Hc.
      destruct s as [|ch' s']; [reflexivity|].
      cbn [starts_with_comma andb].
      destruct (Ascii.eqb_spec ch' comma) as [->|Hcm].
      * simpl in Hc. simpl in Hlen.
        rewrite (IH s') by (trivial; lia).
        cbn [unescape]. now rewrite comma_not_backslash.
      * rewrite (IH (String ch' s')); [reflexivity | simpl in *; lia |].
        rewrite <- Hc. symmetry. apply unescaped_commas_from_start.
        simpl. now apply Ascii.eqb_neq.
    + simpl. destruct (Ascii.eqb_spec ch comma) as [->|Hcm]; [simpl in Hc; lia|].
      simpl in Hc. rewrite (IH s); [reflexivity | lia | exact Hc].
Qed.

(** A value with exactly one unescaped comma is cut by it into two
    segments, the unescapes of what stands before and after it. *)
Lemma segments_one_comma (n : nat) :
  forall s : string,
    String.length s <= n ->
    unescaped_commas s = 1 ->
    exists l r : string,
      s = (l ++ String comma r)%string
      /\ unescaped_commas l = 0 /\ unescaped_commas r = 0
      /\ segments s = [unescape l; unescape r].
Proof.
  induction n as [|n IH]; intros s Hlen Hc.
  - destruct s; [discriminate | simpl in Hlen; lia].
  - destruct s as [|ch s]; [discriminate|].
    simpl in Hlen. unfold unescaped_commas in Hc. simpl in Hc.
    rewrite andb_true_r in Hc. cbn [segments].
    destruct (Ascii.eqb_spec ch backslash) as [->|Hbs].
    + change (Ascii.eqb backslash comma) with false in Hc. simpl in Hc.
      destruct s as [|ch' s']; [discriminate|].
      destruct (Ascii.eqb_spec ch' comma) as [->|Hcm].
      * simpl in Hc, Hlen.
        destruct (IH s') as (l & r & Hs & Hl & Hr & Hseg); [lia | exact Hc |].
        exists (String backslash (String comma l)), r.
        repeat split.
        -- simpl. now rewrite Hs.
        -- unfold unescaped_commas. simpl. exact Hl.
        -- exact Hr.
        -- rewrite Hseg. cbn [unescape starts_with_comma push_front].
           now rewrite comma_not_backslash.
      * assert (Hst : starts_with_comma (String ch' s') = false)
          by (simpl; now apply Ascii.eqb_neq).
        rewrite (unescaped_commas_from_start _ _ Hst) in Hc.
        destruct (IH (String ch' s')) as (l & r & Hs & Hl & Hr & Hseg);
          [simpl in *; lia | exact Hc |].
        rewrite Hs in Hst. apply starts_with_comma_append in Hst.
        exists (String backslash l), r.
        repeat split.
        -- simpl. now rewrite Hs.
        -- unfold unescaped_commas. simpl.
           now rewrite (unescaped_commas_from_start _ _ Hst).
        -- exact Hr.
        -- rewrite Hseg. cbn [unescape push_front]. rewrite Hst.
           now rewrite andb_false_r.
    + simpl. destruct (Ascii.eqb_spec ch comma) as [->|Hcm].
      * simpl in Hc. exists EmptyString, s. repeat split.
        -- unfold unescaped_commas. lia.
        -- rewrite (segments_no_comma (String.length s)); trivial.
           unfold unescaped_commas. lia.
      * simpl in Hc.
        destruct (IH s) as (l & r & Hs & Hl & Hr & Hseg); [lia | exact Hc |].
        exists (String ch l), r. repeat split.
        -- simpl. now rewrite Hs.
        -- unfold unescaped_commas. simpl.
           apply Ascii.eqb_neq in Hbs, Hcm. now rewrite Hbs, Hcm.
        -- exact Hr.
        -- rewrite Hseg. cbn [unescape push_front].
           apply Ascii.eqb_neq in Hbs. now rewrite Hbs.
Qed.

End Alternatives.

(* ================================================================= *)
(** ** The value splitter *)

Section SplitterClaims.

(** C3. A value with no unescaped comma splits into exactly one
    alternative, its single-level unescape (each backslash immediately
    before a comma removed, the comma kept); "a,b" splits into "a" and "b",
    a backslash-escaped comma stays inside the one alternative, and "a,"
    splits into "a" and the empty alternative. *)
Theorem split_no_unescaped_comma :
  (forall s : string, unescaped_commas s = 0 -> splitOrValues s = [unescape s])
  /\ splitOrValues "a,b" = ["a"; "b"]
  /\ splitOrValues "a\,b" = ["a,b"]
  /\ splitOrValues "a," = ["a"; EmptyString].
Proof.
  split; [|repeat split; reflexivity].
  intros s Hs. rewrite splitOrValues_segments.
  now apply (segments_no_comma (String.length s)).
Qed.

Lemma split_no_unescaped_comma_witness :
  unescaped_commas "Doe\, John\x" = 0
  /\ splitOrValues "Doe\, John\x" = ["Doe, John\x"].
Proof.
  split; [reflexivity|].
  exact (proj1 split_no_unescaped_comma "Doe\, John\x" eq_refl).
Defined.

(** C10. On the value a, backslash, backslash, comma, b the splitter returns
    the one alternative a, backslash, comma, b: the backslash right before
    the comma is dropped, the one before it is kept, and the comma does not
    separate. *)
Theorem split_double_backslash :
  splitOrValues
    (String "a" (String backslash (String backslash (String comma
       (String "b" EmptyString)))))
  = [String "a" (String backslash (String comma (String "b" EmptyString)))].
Proof. reflexivity. Qed.

End SplitterClaims.

(* ================================================================= *)
(** ** The value normalizer *)

Section Normalizer.

Lemma all_strings_elems (l : list JSValue) (ss : list string) :
  all_strings l = Some ss -> l = map JStr ss /\ strings_of_elems l = ss.
Proof.
  revert ss. induction l as [|v l IH]; intros ss H; simpl in H.
  - injection H as <-. now split.
  - destruct v; try discriminate.
    destruct (all_strings l) as [ss'|]; [|discriminate].
    injection H as <-. destruct (IH ss' eq_refl) as [-> Hs].
    split; simpl; [reflexivity | now rewrite Hs].
Qed.

Lemma all_strings_map (ss : list string) : all_strings (map JStr ss) = Some ss.
Proof. induction ss as [|s ss IH]; simpl; [reflexivity | now rewrite IH]. Qed.

(** A well-formed value normalizes to its strings; any other value throws
    the error that names the parameter. *)
Lemma normalizeValue_spec (k : string) (v : JSValue) :
  normalizeValue k v =
  if well_formed_value v then Ok (strings_of v)
  else Throw (InvalidSearchParameterError
                ("Invalid search parameter: '" ++ k ++ "'")%string).
Proof.
  destruct v; try reflexivity. simpl.
  destruct (all_strings elems) as [ss|] eqn:H; [|reflexivity].
  now destruct (all_strings_elems _ _ H) as [_ ->].
Qed.

Lemma define_own_fresh {V} (k : string) (v : V) (o : list (string * V)) :
  ~ In k (map fst o) -> define_own k v o = o ++ [(k, v)].
Proof.
  induction o as [|[k' v'] o IH]; simpl; intros H; [reflexivity|].
  destruct (String.eqb_spec k' k) as [->|Hne]; [tauto|].
  rewrite IH by tauto. reflexivity.
Qed.

Lemma define_own_keys {V} (k : string) (v : V) (o : list (string * V)) (x : string) :
  In x (map fst (define_own k v o)) <-> x = k \/ In x (map fst o).
Proof.
  induction o as [|[k' v'] o IH]; simpl; [intuition congruence|].
  destruct (String.eqb_spec k' k) as [->|Hne]; simpl; [intuition|].
  rewrite IH. intuition.
Qed.

(** An assignment appends a fresh key, unless the key is [__proto__]. *)
Lemma obj_set_fresh {V} (k : string) (v : V) (o : list (string * V)) :
  ~ In k (map fst o) ->
  obj_set k v o = o ++ (if stored (k, v) then [(k, v)] else []).
Proof.
  intros H. unfold obj_set, stored. cbn [fst].
  destruct (String.eqb k proto_key); cbn [negb].
  - now rewrite app_nil_r.
  - now apply define_own_fresh.
Qed.

Lemma obj_set_keys {V} (k : string) (v : V) (o : list (string * V)) (x : string) :
  In x (map fst (obj_set k v o))
  <-> (x = k /\ k <> proto_key) \/ In x (map fst o).
Proof.
  unfold obj_set. destruct (String.eqb_spec k proto_key) as [->|Hne].
  - intuition.
  - rewrite define_own_keys. intuition.
Qed.

(** The loop over the entries, on an object (distinct keys): the entries
    are appended one by one, each with its normalized value. *)
Lemma normalizeEntries_wf (entries : list (string * JSValue)) :
  forall acc : list (string * list string),
    NoDup (map fst entries) ->
    (forall k, In k (map fst entries) -> ~ In k (map fst acc)) ->
    forallb (fun e => well_formed_value (snd e)) entries = true ->
    normalizeEntries entries acc
    = Ok (acc ++ map (fun e => (fst e, strings_of (snd e)))
                     (filter stored entries)).
Proof.
  induction entries as [|[k v] entries IH]; intros acc Hnd Hfresh Hwf.
  - simpl. now rewrite app_nil_r.
  - cbn [normalizeEntries]. simpl in Hwf. apply andb_true_iff in Hwf as [Hv Hwf].
    rewrite normalizeValue_spec, Hv.
    inversion Hnd as [|? ? Hk Hnd']; subst.
    rewrite obj_set_fresh by (apply Hfresh; now left).
    rewrite IH; trivial.
    + cbn [filter]. unfold stored at 1 3. cbn [fst].
      destruct (negb (String.eqb k proto_key)); cbn [map].
      * now rewrite <- app_assoc.
      * now rewrite app_nil_r.
    + intros x Hx. rewrite map_app, in_app_iff.
      intros [Hin|Hin].
      * revert Hin. apply Hfresh. now right.
      * destruct (stored (k, strings_of v)); simpl in Hin; [|contradiction].
        destruct Hin as [<-|[]]. contradiction.
Qed.

(** The loop throws at the first entry that is not well formed, whatever
    came before. *)
Lemma normalizeEntries_throw (good : list (string * JSValue)) :
  forall (acc : list (string * list string)) (k : string) (v : JSValue)
         (rest : list (string * JSValue)),
    forallb (fun e => well_formed_value (snd e)) good = true ->
    well_formed_value v = false ->
    normalizeEntries (good ++ (k, v) :: rest) acc
    = Throw (InvalidSearchParameterError
               ("Invalid search parameter: '" ++ k ++ "'")%string).
Proof.
  induction good as [|[k' v'] good IH]; intros acc k v rest Hgood Hv; simpl.
  - now rewrite normalizeValue_spec, Hv.
  - simpl in Hgood. apply andb_true_iff in Hgood as [Hv' Hgood].
    rewrite normalizeValue_spec, Hv'. now apply IH.
Qed.

Lemma normalizeEntries_ok_wf (entries : list (string * JSValue)) :
  forall acc n,
    normalizeEntries entries acc = Ok n ->
    forallb (fun e => well_formed_value (snd e)) entries = true.
Proof.
  induction entries as [|[k v] entries IH]; intros acc n H; simpl in *;
    [reflexivity|].
  rewrite normalizeValue_spec in H.
  destruct (well_formed_value v); [|discriminate].
  simpl. eapply IH. exact H.
Qed.

Lemma normalizeEntries_wf_ok (entries : list (string * JSValue)) :
  forall acc,
    forallb (fun e => well_formed_value (snd e)) entries = true ->
    exists n, normalizeEntries entries acc = Ok n.
Proof.
  induction entries as [|[k v] entries IH]; intros acc H; simpl in *.
  - now exists acc.
  - apply andb_true_iff in H as [Hv H].
    rewrite normalizeValue_spec, Hv. now apply IH.
Qed.

(** A list either is well formed throughout or has a first entry that is
    not. *)
Lemma first_ill_formed (entries : list (string * JSValue)) :
  forallb (fun e => well_formed_value (snd e)) entries = false ->
  exists good k v rest,
    entries = good ++ (k, v) :: rest
    /\ forallb (fun e => well_formed_value (snd e)) good = true
    /\ well_formed_value v = false.
Proof.
  induction entries as [|[k v] entries IH]; simpl; [discriminate|].
  destruct (well_formed_value v) eqn:Hv; simpl.
  - intros H. destruct (IH H) as (good & k' & v' & rest & -> & Hg & Hv').
    exists ((k, v) :: good), k', v', rest. simpl. rewrite Hv. now repeat split.
  - intros _. exists [], k, v, entries. now repeat split.
Qed.

Lemma keys_filter {V} (f : string * V -> bool) (l : list (string * V)) (k : string) :
  In k (map fst (filter f l)) -> In k (map fst l).
Proof.
  rewrite !in_map_iff. intros (e & He & Hin). exists e. split; [exact He|].
  now apply filter_In in Hin.
Qed.

Lemma NoDup_keys_filter {V} (f : string * V -> bool) (l : list (string * V)) :
  NoDup (map fst l) -> NoDup (map fst (filter f l)).
Proof.
  induction l as [|e l IH]; simpl; intros H; [constructor|].
  inversion H as [|? ? Hk Hnd]; subst.
  destruct (f e); simpl; [|now apply IH].
  constructor; [|now apply IH]. intros Hin. apply Hk. now apply keys_filter in Hin.
Qed.

(** Dropping entries by a test on their keys, before or after a property is
    written. *)
Lemma filter_define_own {V} (f : string -> bool) (k : string) (v : V)
    (o : list (string * V)) :
  filter (fun e => f (fst e)) (define_own k v o)
  = if f k then define_own k v (filter (fun e => f (fst e)) o)
    else filter (fun e => f (fst e)) o.
Proof.
  induction o as [|[k' v'] o IH]; cbn [define_own filter fst].
  - now destruct (f k).
  - destruct (String.eqb_spec k' k) as [->|Hne]; cbn [filter fst].
    + destruct (f k); cbn [define_own]; [now rewrite String.eqb_refl | reflexivity].
    + rewrite IH. destruct (f k'), (f k); cbn [define_own]; try reflexivity.
      destruct (String.eqb_spec k' k); [contradiction | reflexivity].
Qed.

Lemma filter_obj_set_keys {V} (f : string -> bool) (k : string) (v : V)
    (o : list (string * V)) :
  filter (fun e => f (fst e)) (obj_set k v o)
  = if f k then obj_set k v (filter (fun e => f (fst e)) o)
    else filter (fun e => f (fst e)) o.
Proof.
  unfold obj_set. destruct (String.eqb k proto_key).
  - now destruct (f k).
  - apply filter_define_own.
Qed.

(** Normalizing without the entries a test on the keys drops, when these
    are well formed: the same outcome, up to the dropped keys. *)
Lemma normalizeEntries_without_keys (f : string -> bool)
    (entries : list (string * JSValue)) :
  forall acc : list (string * list string),
    (forall k v, In (k, v) entries -> f k = false -> well_formed_value v = true) ->
    normalizeEntries (filter (fun e => f (fst e)) entries)
                     (filter (fun e => f (fst e)) acc)
    = match normalizeEntries entries acc with
      | Ok n => Ok (filter (fun e => f (fst e)) n)
      | Throw e => Throw e
      end.
Proof.
  induction entries as [|[k v] entries IH]; intros acc Hwf; [reflexivity|].
  assert (Hwf' : forall k v, In (k, v) entries -> f k = false ->
                             well_formed_value v = true)
    by (intros; eapply Hwf; [right|]; eassumption).
  cbn [filter fst normalizeEntries].
  destruct (f k) eqn:Hk; cbn [normalizeEntries].
  - destruct (normalizeValue k v) as [values|e]; [|reflexivity].
    now rewrite <- (IH _ Hwf'), filter_obj_set_keys, Hk.
  - rewrite normalizeValue_spec, (Hwf k v (or_introl eq_refl) Hk).
    now rewrite <- (IH _ Hwf'), filter_obj_set_keys, Hk.
Qed.

(** The result of a normalization holds no key [__proto__]. *)
Lemma normalizeEntries_stored (entries : list (string * JSValue)) :
  forall acc n,
    normalizeEntries entries acc = Ok n ->
    filter stored acc = acc ->
    filter stored n = n.
Proof.
  induction entries as [|[k v] entries IH]; intros acc n H Hacc; simpl in H.
  - now injection H as <-.
  - destruct (normalizeValue k v) as [values|e]; [|discriminate].
    apply (IH _ _ H).
    change (@stored (list string)) with (fun e : string * list string =>
                                           negb (String.eqb (fst e) proto_key)).
    rewrite (filter_obj_set_keys (fun k => negb (String.eqb k proto_key))).
    change (fun e : string * list string => negb (String.eqb (fst e) proto_key))
      with (@stored (list string)).
    rewrite Hacc. unfold obj_set.
    now destruct (String.eqb k proto_key).
Qed.

End Normalizer.

(* ================================================================= *)
(** ** Messages *)

Section Messages.

Lemma prefix_append (p rest : string) : String.prefix p (p ++ rest) = true.
Proof.
  induction p as [|ch p IH]; simpl; [now destruct rest|].
  destruct (ascii_dec ch ch); [exact IH | congruence].
Qed.

Lemma includes_here (s t : string) : String.prefix t s = true -> JS.includes s t = true.
Proof. intros H. destruct s; simpl in *; rewrite H; reflexivity. Qed.

(** A string occurs in every string built around it. *)
Lemma mentions_middle (before p after : string) :
  mentions (before ++ p ++ after) p.
Proof.
  unfold mentions. induction before as [|ch before IH]; simpl.
  - apply includes_here, prefix_append.
  - rewrite IH. apply orb_true_r.
Qed.

Lemma mentions_end (before p : string) : mentions (before ++ p) p.
Proof.
  pose proof (mentions_middle before p EmptyString) as H.
  now rewrite append_empty_r in H.
Qed.

End Messages.

(* ================================================================= *)
(** ** Normalization of the query parameters *)

Section NormalizerClaims.

Lemma well_formed_value_iff (v : JSValue) :
  well_formed_value v = true
  <-> (exists s, v = JStr s) \/ (exists ss, v = JArr (map JStr ss)).
Proof.
  split.
  - destruct v; try discriminate; simpl.
    + intros _. left. now exists s.
    + destruct (all_strings elems) as [ss|] eqn:H; [|discriminate].
      intros _. right. exists ss. now destruct (all_strings_elems _ _ H) as [-> _].
  - intros [[s ->]|[ss ->]]; simpl; [reflexivity|].
    now rewrite all_strings_map.
Qed.

Lemma strings_of_array (ss : list string) : strings_of (JArr (map JStr ss)) = ss.
Proof.
  simpl. induction ss as [|s ss IH]; simpl; [reflexivity | now rewrite IH].
Qed.

(** X13. On an object whose values are all strings or all-string arrays,
    [normalizeQueryParams] returns the keys other than [__proto__] in their
    order, a string [s] replaced by the one-element sequence [[s]] and an
    array of strings kept as it is; an own entry [__proto__] is left out. It
    throws exactly when some value is neither a string nor an all-string
    array; the error then is [InvalidSearchParameterError] and its message
    names the first such parameter. *)
Theorem normalizeQueryParams_spec (qp : list (string * JSValue)) :
  (NoDup (map fst qp) ->
   forallb (fun e => well_formed_value (snd e)) qp = true ->
   normalizeQueryParams qp
   = Ok (map (fun e => (fst e, strings_of (snd e))) (filter stored qp)))
  /\ (forall s, strings_of (JStr s) = [s])
  /\ (forall ss, strings_of (JArr (map JStr ss)) = ss)
  /\ ((exists e, normalizeQueryParams qp = Throw e)
      <-> (exists k v, In (k, v) qp
                       /\ ~ ((exists s, v = JStr s)
                             \/ (exists ss, v = JArr (map JStr ss)))))
  /\ (forall good k v rest,
        qp = good ++ (k, v) :: rest ->
        forallb (fun e => well_formed_value (snd e)) good = true ->
        well_formed_value v = false ->
        normalizeQueryParams qp
        = Throw (InvalidSearchParameterError
                   ("Invalid search parameter: '" ++ k ++ "'")%string)
        /\ mentions ("Invalid search parameter: '" ++ k ++ "'")%string k).
Proof.
  split; [|split; [|split; [|split]]].
  - intros Hnd Hwf. unfold normalizeQueryParams.
    rewrite normalizeEntries_wf; trivial. intros k _ [].
  - reflexivity.
  - apply strings_of_array.
  - split.
    + intros [e He].
      destruct (forallb (fun e => well_formed_value (snd e)) qp) eqn:Hwf.
      * destruct (normalizeEntries_wf_ok qp [] Hwf) as [n Hn].
        unfold normalizeQueryParams in He. congruence.
      * destruct (first_ill_formed _ Hwf) as (good & k & v & rest & -> & _ & Hv).
        exists k, v. split; [apply in_elt|].
        rewrite <- well_formed_value_iff. congruence.
    + intros (k & v & Hin & Hv).
      destruct (forallb (fun e => well_formed_value (snd e)) qp) eqn:Hwf.
      * exfalso. apply Hv. apply well_formed_value_iff.
        destruct (forallb_forall (fun e => well_formed_value (snd e)) qp) as [Hall _].
        exact (Hall Hwf (k, v) Hin).
      * destruct (first_ill_formed _ Hwf) as (good & k' & v' & rest & -> & Hg & Hv').
        eexists. unfold normalizeQueryParams. now apply normalizeEntries_throw.
  - intros good k v rest -> Hg Hv. split.
    + unfold normalizeQueryParams. now apply normalizeEntries_throw.
    + apply (mentions_middle "Invalid search parameter: '" k "'").
Qed.

Lemma normalizeQueryParams_spec_witness :
  normalizeQueryParams [("name", JStr "Smith"); ("__proto__", JStr "x");
                        ("given", JArr [JStr "A"; JStr "B"])]
  = Ok [("name", ["Smith"]); ("given", ["A"; "B"])]
  /\ normalizeQueryParams [("name", JObj [("key", JStr "Smith")])]
     = Throw (InvalidSearchParameterError "Invalid search parameter: 'name'").
Proof.
  split.
  - refine (proj1 (normalizeQueryParams_spec
                     [("name", JStr "Smith"); ("__proto__", JStr "x");
                      ("given", JArr [JStr "A"; JStr "B"])])
                  _ eq_refl).
    repeat constructor; simpl; intuition discriminate.
  - exact (proj1 (proj2 (proj2 (proj2 (proj2 (normalizeQueryParams_spec
             [("name", JObj [("key", JStr "Smith")])]))))
             [] "name" (JObj [("key", JStr "Smith")]) [] eq_refl eq_refl eq_refl)).
Defined.

Lemma obj_get_map {V W} (f : V -> W) (o : list (string * V)) (k : string) (v : V) :
  NoDup (map fst o) -> In (k, v) o ->
  obj_get k (map (fun e => (fst e, f (snd e))) o) = Some (f v).
Proof.
  induction o as [|[k' v'] o IH]; simpl; intros Hnd Hin; [contradiction|].
  inversion Hnd as [|? ? Hk Hnd']; subst.
  destruct Hin as [Heq|Hin].
  - injection Heq as -> ->. now rewrite String.eqb_refl.
  - destruct (String.eqb_spec k' k) as [->|Hne]; [|now apply IH].
    exfalso. apply Hk. apply (in_map fst) in Hin. exact Hin.
Qed.

(** C4. The code on an own entry [__proto__]: a plain string under that key
    is not mapped to a one-element sequence, and an array of strings under it
    is not passed through; the entry is missing from the result, which holds
    the other entries only. *)
Theorem normalizeQueryParams_drops_proto :
  normalizeQueryParams [("__proto__", JStr "Smith")] = Ok []
  /\ normalizeQueryParams [("name", JStr "Smith");
                           ("__proto__", JArr [JStr "A"; JStr "B"])]
     = Ok [("name", ["Smith"])].
Proof. split; reflexivity. Qed.

(** C2. The code on an own entry [__proto__] with a non-empty value:
    normalization succeeds and yields no sequence for the entry, neither
    under its key nor elsewhere. *)
Theorem normalized_proto_entry_has_no_sequence :
  exists n : list (string * list string),
    normalizeQueryParams [("__proto__", JArr [JStr "A"; JStr "B"])] = Ok n
    /\ obj_get "__proto__" n = None
    /\ n = [].
Proof. exists []. repeat split; reflexivity. Qed.

(** X14. After a normalization that succeeds, every entry of the query
    parameters whose key is not [__proto__] and whose value is not the empty
    array is found under its key as a non-empty sequence of strings: the
    string itself, or the strings of the array in their order. And the
    splitter returns, for every string, a sequence of at least one
    alternative (its scan never lacks rounds). *)
Theorem normalized_and_split_nonempty :
  (forall (qp : list (string * JSValue)) (n : list (string * list string))
          (k : string) (v : JSValue),
      NoDup (map fst qp) ->
      normalizeQueryParams qp = Ok n ->
      In (k, v) qp ->
      k <> "__proto__" ->
      v <> JArr [] ->
      exists vs : list string,
        obj_get k n = Some vs
        /\ vs <> []
        /\ (v = JStr (hd EmptyString vs) /\ List.length vs = 1
            \/ v = JArr (map JStr vs)))
  /\ (forall s : string,
        splitOrValues_opt s = Some (splitOrValues s)
        /\ 1 <= List.length (splitOrValues s)).
Proof.
  split.
  - intros qp n k v Hnd Hn Hin Hk Hne.
    pose proof (normalizeEntries_ok_wf _ _ _ Hn) as Hwf.
    unfold normalizeQueryParams in Hn.
    rewrite normalizeEntries_wf in Hn by (trivial; intros ? _ []).
    injection Hn as <-.
    exists (strings_of v). split.
    { apply obj_get_map; [now apply NoDup_keys_filter|].
      apply filter_In. split; [exact Hin|].
      unfold stored. cbn [fst]. apply negb_true_iff. now apply String.eqb_neq. }
    destruct (forallb_forall (fun e => well_formed_value (snd e)) qp) as [Hall _].
    pose proof (Hall Hwf (k, v) Hin) as Hv. simpl in Hv.
    apply well_formed_value_iff in Hv as [[s ->]|[ss ->]].
    + split; [discriminate|]. left. now split.
    + rewrite strings_of_array. split; [|now right].
      intros ->. now apply Hne.
  - intros s. rewrite splitOrValues_opt_segments, splitOrValues_segments.
    split; [reflexivity|].
    pose proof (segments_nonempty s) as H.
    destruct (segments s); [congruence | simpl; lia].
Qed.

Lemma normalized_and_split_nonempty_witness :
  (exists vs : list string,
      obj_get "given" [("name", ["Smith"]); ("given", ["A"; "B"])] = Some vs
      /\ vs <> []
      /\ (JArr [JStr "A"; JStr "B"] = JStr (hd EmptyString vs) /\ List.length vs = 1
          \/ JArr [JStr "A"; JStr "B"] = JArr (map JStr vs)))
  /\ 1 <= List.length (splitOrValues ",").
Proof.
  split.
  - refine (proj1 normalized_and_split_nonempty
              [("name", JStr "Smith"); ("given", JArr [JStr "A"; JStr "B"])]
              [("name", ["Smith"]); ("given", ["A"; "B"])]
              "given" (JArr [JStr "A"; JStr "B"]) _ eq_refl _ _ _).
    + repeat constructor; simpl; intuition discriminate.
    + simpl. right. left. reflexivity.
    + discriminate.
    + discriminate.
  - exact (proj2 (proj2 normalized_and_split_nonempty ",")).
Defined.

End NormalizerClaims.

(* ================================================================= *)
(** ** The type dispatcher and the parameter compiler *)

Section ParameterClaims.

Context {TQ : TypeQueries}.

(** C6. For a descriptor that carries a condition (fieldX, _, matchVal) the
    dispatcher returns {bool: {must: [baseQuery, {multi_match: {fields:
    [fieldX, fieldX + ".*"], query: matchVal, lenient: true}}]}}, whatever
    the declared type; without a condition it returns baseQuery itself.
    baseQuery is the output of the constructor of the declared type, the
    string constructor standing in for every other type. *)
Theorem typeQueryWithConditions_spec
    (sp : SearchParam) (c : CompiledSearchParam) (v : string) :
  (forall fieldX op matchVal : string,
      condition c = Some (fieldX, op, matchVal) ->
      typeQueryWithConditions sp c v
      = JObj [("bool",
               JObj [("must",
                      JArr [typeQuery sp c v;
                            JObj [("multi_match",
                                   JObj [("fields",
                                          JArr [JStr fieldX;
                                                JStr (fieldX ++ ".*")%string]);
                                         ("query", JStr matchVal);
                                         ("lenient", JBool true)])]])])])
  /\ (condition c = None -> typeQueryWithConditions sp c v = typeQuery sp c v)
  /\ (type sp = "string" -> typeQuery sp c v = stringQuery c v)
  /\ (type sp = "date" -> typeQuery sp c v = dateQuery c v)
  /\ (type sp = "token" -> typeQuery sp c v = tokenQuery c v)
  /\ (type sp = "number" -> typeQuery sp c v = numberQuery c v)
  /\ (type sp = "quantity" -> typeQuery sp c v = quantityQuery c v)
  /\ (type sp = "reference" -> typeQuery sp c v = referenceQuery c v)
  /\ (~ In (type sp) ["date"; "token"; "number"; "quantity"; "reference"] ->
      typeQuery sp c v = stringQuery c v).
Proof.
  repeat split.
  - intros fieldX op matchVal H. unfold typeQueryWithConditions. now rewrite H.
  - intros H. unfold typeQueryWithConditions. now rewrite H.
  - intros H. unfold typeQuery. now rewrite H.
  - intros H. unfold typeQuery. now rewrite H.
  - intros H. unfold typeQuery. now rewrite H.
  - intros H. unfold typeQuery. now rewrite H.
  - intros H. unfold typeQuery. now rewrite H.
  - intros H. unfold typeQuery. now rewrite H.
  - intros H. unfold typeQuery. simpl in H.
    repeat match goal with
           | |- context [String.eqb ?a ?b] =>
               destruct (String.eqb_spec a b); [try reflexivity; exfalso; apply H; intuition|]
           end.
    reflexivity.
Qed.

Lemma searchParamQuery_single (sp : SearchParam) (v a : string) :
  splitOrValues v = [a] -> searchParamQuery sp v = alternativeQueries sp a.
Proof. intros H. unfold searchParamQuery. now rewrite H. Qed.

Lemma searchParamQuery_pair (sp : SearchParam) (v a1 a2 : string) :
  splitOrValues v = [a1; a2] ->
  searchParamQuery sp v
  = JObj [("bool", JObj [("should", JArr [alternativeQueries sp a1;
                                          alternativeQueries sp a2])])].
Proof. intros H. unfold searchParamQuery. now rewrite H. Qed.

(** C1, as amended. For a parameter with exactly one compiled descriptor
    and a raw value with no unescaped comma, [searchParamQuery] adds no
    [should] wrapper and its result carries exactly one query: the output of
    the dispatcher for that descriptor and the single-level unescape of the
    value, alone or as the one element of a list. *)
Theorem searchParamQuery_one_descriptor
    (sp : SearchParam) (c : CompiledSearchParam) (v : string) :
  compiled sp = [c] ->
  unescaped_commas v = 0 ->
  searchParamQuery sp v = typeQueryWithConditions sp c (unescape v)
  \/ searchParamQuery sp v = JArr [typeQueryWithConditions sp c (unescape v)].
Proof.
  intros Hc Hv. right.
  rewrite (searchParamQuery_single sp v (unescape v)).
  - unfold alternativeQueries. now rewrite Hc.
  - rewrite splitOrValues_segments.
    now apply (segments_no_comma (String.length v)).
Qed.

(** C9. For a value with exactly one unescaped comma, [searchParamQuery]
    returns {bool: {should: [e1, e2]}}: the value is cut at that comma, the
    alternatives are the unescapes of the two sides, left then right, and
    each entry is what [searchParamQuery] returns for any value whose one
    alternative is that side. *)
Theorem searchParamQuery_two_alternatives (sp : SearchParam) (v : string) :
  unescaped_commas v = 1 ->
  exists (l r : string) (e1 e2 : JSValue),
    v = (l ++ String comma r)%string
    /\ splitOrValues v = [unescape l; unescape r]
    /\ searchParamQuery sp v = JObj [("bool", JObj [("should", JArr [e1; e2])])]
    /\ (forall w, splitOrValues w = [unescape l] -> searchParamQuery sp w = e1)
    /\ (forall w, splitOrValues w = [unescape r] -> searchParamQuery sp w = e2).
Proof.
  intros Hv.
  destruct (segments_one_comma (String.length v) v (Nat.le_refl _) Hv)
    as (l & r & Hcut & _ & _ & Hseg).
  rewrite <- splitOrValues_segments in Hseg.
  exists l, r, (alternativeQueries sp (unescape l)),
    (alternativeQueries sp (unescape r)).
  repeat split; trivial.
  - now apply searchParamQuery_pair.
  - intros w Hw. now apply searchParamQuery_single.
  - intros w Hw. now apply searchParamQuery_single.
Qed.

End ParameterClaims.

Lemma typeQueryWithConditions_spec_witness :
  typeQueryWithConditions (TQ := Demo.queries)
    (mkSearchParam "address-city" "token" [Demo.homeAddress])
    Demo.homeAddress "Paris"
  = JObj [("bool",
           JObj [("must",
                  JArr [Demo.leaf "token" Demo.homeAddress "Paris";
                        JObj [("multi_match",
                               JObj [("fields",
                                      JArr [JStr "address.use"; JStr "address.use.*"]);
                                     ("query", JStr "home");
                                     ("lenient", JBool true)])]])])].
Proof.
  exact (proj1 (typeQueryWithConditions_spec (TQ := Demo.queries)
                  (mkSearchParam "address-city" "token" [Demo.homeAddress])
                  Demo.homeAddress "Paris")
               "address.use" "=" "home" eq_refl).
Defined.

Lemma searchParamQuery_one_descriptor_witness :
  compiled Demo.nameParam = [Demo.familyName]
  /\ unescaped_commas "Doe\, John" = 0
  /\ (searchParamQuery (TQ := Demo.queries) Demo.nameParam "Doe\, John"
      = Demo.leaf "string" Demo.familyName "Doe, John"
      \/ searchParamQuery (TQ := Demo.queries) Demo.nameParam "Doe\, John"
         = JArr [Demo.leaf "string" Demo.familyName "Doe, John"]).
Proof.
  split; [reflexivity|]. split; [reflexivity|].
  exact (searchParamQuery_one_descriptor (TQ := Demo.queries)
           Demo.nameParam Demo.familyName "Doe\, John" eq_refl eq_refl).
Defined.

(** C1, as stated, fails on the value [Doe\, John]: the dispatcher is run on
    the unescaped [Doe, John], so the result is not the dispatcher output for
    the raw value, neither bare nor inside a list. *)
Lemma searchParamQuery_raw_value_counterexample :
  compiled Demo.nameParam = [Demo.familyName]
  /\ unescaped_commas "Doe\, John" = 0
  /\ searchParamQuery (TQ := Demo.queries) Demo.nameParam "Doe\, John"
     <> typeQueryWithConditions (TQ := Demo.queries)
          Demo.nameParam Demo.familyName "Doe\, John"
  /\ searchParamQuery (TQ := Demo.queries) Demo.nameParam "Doe\, John"
     <> JArr [typeQueryWithConditions (TQ := Demo.queries)
                Demo.nameParam Demo.familyName "Doe\, John"].
Proof.
  repeat split; try reflexivity; vm_compute; intros H; discriminate H.
Qed.

Lemma searchParamQuery_two_alternatives_witness :
  unescaped_commas "Lyon\, FR,Paris" = 1
  /\ exists (l r : string) (e1 e2 : JSValue),
       "Lyon\, FR,Paris" = (l ++ String comma r)%string
       /\ splitOrValues "Lyon\, FR,Paris" = [unescape l; unescape r]
       /\ searchParamQuery (TQ := Demo.queries) Demo.cityParam "Lyon\, FR,Paris"
          = JObj [("bool", JObj [("should", JArr [e1; e2])])]
       /\ (forall w, splitOrValues w = [unescape l] ->
                     searchParamQuery (TQ := Demo.queries) Demo.cityParam w = e1)
       /\ (forall w, splitOrValues w = [unescape r] ->
                     searchParamQuery (TQ := Demo.queries) Demo.cityParam w = e2).
Proof.
  split; [reflexivity|].
  exact (searchParamQuery_two_alternatives (TQ := Demo.queries)
           Demo.cityParam "Lyon\, FR,Paris" eq_refl).
Defined.

(* ================================================================= *)
(** ** The request compiler *)

Section RequestFacts.

Context {TQ : TypeQueries}.
Variable NON_SEARCHABLE_PARAMETERS : list string.
Variable registry : FHIRSearchParametersRegistry.
Variable rt : string.

Local Abbreviation entryQuery := (searchEntryQuery registry rt).
Local Abbreviation resolved := (resolved registry rt).
Local Abbreviation entryQueries := (entryQueries registry rt).

Lemma searchEntryQuery_resolved (entry : string * list string) :
  resolved entry = true ->
  entryQuery entry = ([(rt, fst entry)], Ok (entryQueries entry)).
Proof.
  destruct entry as [p vals]. unfold resolved, entryQueries, searchEntryQuery.
  simpl. now destruct (getSearchParameter registry rt p).
Qed.

Lemma searchEntryQuery_unresolved (entry : string * list string) :
  resolved entry = false ->
  entryQuery entry
  = ([(rt, fst entry)],
     Throw (InvalidSearchParameterError
              ("Invalid search parameter '" ++ fst entry
                 ++ "' for resource type " ++ rt)%string)).
Proof.
  destruct entry as [p vals]. unfold resolved, searchEntryQuery.
  simpl. now destruct (getSearchParameter registry rt p).
Qed.

(** When every entry resolves, the callback runs on all of them. *)
Lemma flatMapM_resolved (l : list (string * list string)) :
  forallb resolved l = true ->
  flatMapM entryQuery l
  = (map (fun e => (rt, fst e)) l, Ok (flat_map entryQueries l)).
Proof.
  induction l as [|e l IH]; simpl; [reflexivity|].
  intros H. apply andb_true_iff in H as [He Hl].
  rewrite (searchEntryQuery_resolved e He), (IH Hl). simpl.
  now rewrite app_nil_r.
Qed.

(** Otherwise it stops at the first entry that does not. *)
Lemma flatMapM_unresolved (before : list (string * list string)) :
  forall (entry : string * list string) (after : list (string * list string)),
    forallb resolved before = true ->
    resolved entry = false ->
    flatMapM entryQuery (before ++ entry :: after)
    = (map (fun e => (rt, fst e)) (before ++ [entry]),
       Throw (InvalidSearchParameterError
                ("Invalid search parameter '" ++ fst entry
                   ++ "' for resource type " ++ rt)%string)).
Proof.
  induction before as [|e before IH]; intros entry after Hb He; simpl.
  - now rewrite (searchEntryQuery_unresolved entry He).
  - simpl in Hb. apply andb_true_iff in Hb as [He' Hb].
    rewrite (searchEntryQuery_resolved e He'), (IH entry after Hb He).
    reflexivity.
Qed.

Lemma first_unresolved (l : list (string * list string)) :
  forallb resolved l = false ->
  exists before entry after,
    l = before ++ entry :: after
    /\ forallb resolved before = true
    /\ resolved entry = false.
Proof.
  induction l as [|e l IH]; simpl; [discriminate|].
  destruct (resolved e) eqn:He; simpl.
  - intros H. destruct (IH H) as (before & entry & after & -> & Hb & Hn).
    exists (e :: before), entry, after. simpl. rewrite He. now repeat split.
  - intros _. exists [], e, l. now repeat split.
Qed.

(** Every look-up of the [flatMap] is for the key of one of its entries. *)
Lemma flatMapM_lookups (l : list (string * list string)) (lk : Lookup) :
  In lk (lookups (flatMapM entryQuery l)) ->
  exists e, In e l /\ lk = (rt, fst e).
Proof.
  destruct (forallb resolved l) eqn:H.
  - rewrite (flatMapM_resolved l H). unfold lookups. simpl.
    rewrite in_map_iff. intros (e & <- & He). now exists e.
  - destruct (first_unresolved l H) as (before & entry & after & -> & Hb & Hn).
    rewrite (flatMapM_unresolved before entry after Hb Hn). unfold lookups. simpl.
    rewrite in_map_iff. intros (e & <- & He). exists e. split; [|reflexivity].
    rewrite in_app_iff in *. simpl in *. intuition.
Qed.

Lemma entryQueries_pairs (e : string * list string) :
  resolved e = true ->
  Forall2 (fun pv q =>
             exists sp, getSearchParameter registry rt (fst pv) = Some sp
                        /\ q = searchParamQuery sp (snd pv))
          (map (pair (fst e)) (snd e)) (entryQueries e).
Proof.
  destruct e as [p vals]. unfold resolved, entryQueries. simpl.
  destruct (getSearchParameter registry rt p) as [sp|] eqn:Hsp; [|discriminate].
  intros _. induction vals as [|v vals IH]; simpl; constructor; trivial.
  exists sp. now split.
Qed.

(** One query per (parameter, value) pair, in order. *)
Lemma flat_map_entryQueries_pairs (l : list (string * list string)) :
  forallb resolved l = true ->
  Forall2 (fun pv q =>
             exists sp, getSearchParameter registry rt (fst pv) = Some sp
                        /\ q = searchParamQuery sp (snd pv))
          (value_pairs l) (flat_map entryQueries l).
Proof.
  induction l as [|e l IH]; simpl; [constructor|].
  intros H. apply andb_true_iff in H as [He Hl].
  apply Forall2_app; [now apply entryQueries_pairs | now apply IH].
Qed.

End RequestFacts.

Section RequestClaims.

Context {TQ : TypeQueries}.
Variable NON_SEARCHABLE_PARAMETERS : list string.

Local Abbreviation keep := (searchable NON_SEARCHABLE_PARAMETERS).
Local Abbreviation search := (searchRequestQuery NON_SEARCHABLE_PARAMETERS).
Local Abbreviation build :=
  (buildQueryForAllSearchParameters NON_SEARCHABLE_PARAMETERS).

Lemma searchRequestQuery_normalized registry request n :
  normalizeQueryParams (queryParams request) = Ok n ->
  search registry request
  = flatMapM (searchEntryQuery registry (resourceType request)) (filter keep n).
Proof.
  intros H. unfold searchRequestQuery. rewrite H. unfold lift, bind.
  now destruct (flatMapM _ _).
Qed.

Lemma searchRequestQuery_malformed registry request e :
  normalizeQueryParams (queryParams request) = Throw e ->
  search registry request = ([], Throw e).
Proof. intros H. unfold searchRequestQuery. now rewrite H. Qed.

(** The exported function wraps what [searchRequestQuery] returns and makes
    no look-up of its own. *)
Lemma buildQuery_of_search registry request additionalFilters :
  build registry request additionalFilters
  = match search registry request with
    | (log, Ok must) =>
        (log, Ok (JObj [("bool",
                         JObj [("filter",
                                JArr (match additionalFilters with
                                      | Some f => f
                                      | None => []
                                      end));
                               ("must", JArr must)])]))
    | (log, Throw e) => (log, Throw e)
    end.
Proof.
  unfold buildQueryForAllSearchParameters, bind.
  destruct (search registry request) as [log [must|e]]; [|reflexivity].
  simpl. now rewrite app_nil_r.
Qed.

(** Normalization keeps every key but [__proto__]. *)
Lemma normalizeEntries_keys (entries : list (string * JSValue)) :
  forall acc n k,
    normalizeEntries entries acc = Ok n ->
    (In k (map fst entries) /\ k <> proto_key) \/ In k (map fst acc) ->
    In k (map fst n).
Proof.
  induction entries as [|[k' v'] entries IH]; intros acc n k H Hk; simpl in *.
  - injection H as <-. tauto.
  - destruct (normalizeValue k' v') as [values|e]; [|discriminate].
    apply (IH _ _ _ H). rewrite obj_set_keys.
    destruct Hk as [[[<-|Hin] Hne]|Hin]; intuition.
Qed.




End RequestClaims.


(** C5, as stated, fails on a request that also holds a malformed entry, and
    on the second of two unknown parameters: [foo] is searchable and unknown
    to the registry, yet the message of the error names neither [foo] nor
    [Patient]; and with [foo] and [baz] both unknown the message does not
    name [baz]. *)
Lemma unresolved_parameter_counterexample :
  (In ("foo", JStr "1") (queryParams Demo.nestedRequest)
   /\ JS.array_includes Demo.nonSearchable "foo" = false
   /\ getSearchParameter Demo.registry "Patient" "foo" = None
   /\ outcome (buildQueryForAllSearchParameters (TQ := Demo.queries)
                 Demo.nonSearchable Demo.registry Demo.nestedRequest None)
      = Throw (InvalidSearchParameterError "Invalid search parameter: 'bar'")
   /\ ~ mentions "Invalid search parameter: 'bar'" "Patient"
   /\ ~ mentions "Invalid search parameter: 'bar'" "foo")
  /\ (In ("baz", JStr "2") (queryParams Demo.twoUnknownRequest)
      /\ JS.array_includes Demo.nonSearchable "baz" = false
      /\ getSearchParameter Demo.registry "Patient" "baz" = None
      /\ outcome (buildQueryForAllSearchParameters (TQ := Demo.queries)
                    Demo.nonSearchable Demo.registry Demo.twoUnknownRequest None)
         = Throw (InvalidSearchParameterError
                    "Invalid search parameter 'foo' for resource type Patient")
      /\ ~ mentions "Invalid search parameter 'foo' for resource type Patient" "baz").
Proof.
  unfold mentions.
  repeat split; try reflexivity; try (simpl; tauto);
    try (vm_compute; intros H; discriminate H).
Qed.

(* ================================================================= *)
(** * Further properties of the splitter *)

Section SplitterMore.

Lemma push_front_length (ch : ascii) (l : list string) :
  l <> [] -> List.length (push_front ch l) = List.length l.
Proof. destruct l; [congruence | reflexivity]. Qed.

Lemma push_front_app (ch : ascii) (l l' : list string) :
  l <> [] -> push_front ch (l ++ l') = push_front ch l ++ l'.
Proof. destruct l; [congruence | reflexivity]. Qed.

Lemma join_comma_push_front (ch : ascii) (l : list string) :
  l <> [] -> join_comma (push_front ch l) = String ch (join_comma l).
Proof.
  destruct l as [|h t]; [congruence|]. intros _. simpl. now destruct t.
Qed.

Lemma join_comma_cons (a : string) (l : list string) :
  l <> [] -> join_comma (a :: l) = (a ++ String comma (join_comma l))%string.
Proof. destruct l; [congruence | reflexivity]. Qed.

Lemma segments_count (n : nat) :
  forall s : string,
    String.length s <= n ->
    List.length (segments s) = unescaped_commas s + 1.
Proof.
  induction n as [|n IH]; intros s Hlen.
  - destruct s; [reflexivity | simpl in Hlen; lia].
  - destruct s as [|ch s]; [reflexivity|].
    simpl in Hlen. unfold unescaped_commas. cbn [unescaped_commas_from segments].
    rewrite andb_true_r.
    destruct (Ascii.eqb_spec ch backslash) as [->|Hbs].
    + change (Ascii.eqb backslash comma) with false. cbn [Nat.add].
      destruct s as [|ch' s']; [reflexivity|].
      destruct (Ascii.eqb_spec ch' comma) as [->|Hcm].
      * rewrite push_front_length by apply segments_nonempty.
        simpl in Hlen. rewrite IH by lia. reflexivity.
      * rewrite push_front_length by apply segments_nonempty.
        rewrite IH by (simpl in *; lia).
        rewrite (unescaped_commas_from_start true); [reflexivity|].
        simpl. now apply Ascii.eqb_neq.
    + destruct (Ascii.eqb_spec ch comma) as [->|Hcm].
      * cbn [List.length]. rewrite IH by lia. reflexivity.
      * rewrite push_front_length by apply segments_nonempty.
        rewrite IH by lia. reflexivity.
Qed.

(** X1. The splitter returns one alternative more than the value has
    unescaped commas, empty alternatives included. *)
Theorem split_count (s : string) :
  List.length (splitOrValues s) = unescaped_commas s + 1.
Proof.
  rewrite splitOrValues_segments. now apply (segments_count (String.length s)).
Qed.




Lemma segments_append_comma (n : nat) :
  forall l r : string,
    String.length l <= n ->
    ends_with_backslash l = false ->
    segments (l ++ String comma r) = segments l ++ segments r.
Proof.
  induction n as [|n IH]; intros l r Hlen Hend.
  - destruct l; [reflexivity | simpl in Hlen; lia].
  - destruct l as [|ch l]; [reflexivity|].
    simpl in Hlen. cbn [append segments].
    destruct (Ascii.eqb_spec ch backslash) as [->|Hbs].
    + destruct l as [|ch' l']; [simpl in Hend; discriminate|].
      cbn [append].
      destruct (Ascii.eqb_spec ch' comma) as [->|Hcm].
      * simpl in Hlen. rewrite IH.
        -- now rewrite push_front_app by apply segments_nonempty.
        -- lia.
        -- destruct l'; [reflexivity | exact Hend].
      * change (String ch' (l' ++ String comma r))
          with (String ch' l' ++ String comma r)%string.
        rewrite IH by (simpl in *; trivial; lia).
        now rewrite push_front_app by apply segments_nonempty.
    + assert (Hend' : ends_with_backslash l = false).
      { destruct l; [reflexivity | exact Hend]. }
      destruct (Ascii.eqb_spec ch comma) as [->|Hcm].
      * now rewrite IH by (trivial; lia).
      * rewrite IH by (trivial; lia).
        now rewrite push_front_app by apply segments_nonempty.
Qed.

(** X3. A comma that does not follow a backslash separates whatever
    surrounds it: the alternatives of [l,r] are those of [l] followed by
    those of [r]. *)
Theorem split_at_unescaped_comma (l r : string) :
  ends_with_backslash l = false ->
  splitOrValues (l ++ String comma r) = splitOrValues l ++ splitOrValues r.
Proof.
  intros H. rewrite !splitOrValues_segments.
  now apply (segments_append_comma (String.length l)).
Qed.

Lemma segments_plain (s : string) :
  has_char backslash s = false ->
  join_comma (segments s) = s
  /\ Forall (fun a => has_char comma a = false) (segments s).
Proof.
  induction s as [|ch s IH]; intros H.
  - split; [reflexivity | repeat constructor].
  - simpl in H. apply orb_false_iff in H as [Hch Hs].
    destruct (IH Hs) as [Hjoin Hall]. cbn [segments]. rewrite Hch.
    destruct (Ascii.eqb ch comma) eqn:Hcm.
    + apply Ascii.eqb_eq in Hcm. subst ch. split.
      * rewrite join_comma_cons by apply segments_nonempty. now rewrite Hjoin.
      * constructor; [reflexivity | exact Hall].
    + split.
      * rewrite join_comma_push_front by apply segments_nonempty.
        now rewrite Hjoin.
      * pose proof (segments_nonempty s) as Hne.
        destruct (segments s) as [|h t]; [congruence|].
        inversion Hall; subst. constructor; [|assumption].
        simpl. rewrite Hcm. assumption.
Qed.

(** X4. On a value without any backslash the splitter is the plain split
    at commas: no alternative contains a comma, and the alternatives joined
    with commas are the value itself. *)
Theorem split_without_backslash (s : string) :
  has_char backslash s = false ->
  join_comma (splitOrValues s) = s
  /\ Forall (fun a => has_char comma a = false) (splitOrValues s).
Proof. intros H. rewrite splitOrValues_segments. now apply segments_plain. Qed.

End SplitterMore.

Lemma split_at_unescaped_comma_witness :
  ends_with_backslash "x\,y" = false
  /\ splitOrValues "x\,y,z,w" = ["x,y"; "z"; "w"].
Proof.
  split; [reflexivity|].
  exact (split_at_unescaped_comma "x\,y" "z,w" eq_refl).
Defined.

Lemma split_without_backslash_witness :
  has_char backslash "a,,b" = false
  /\ join_comma (splitOrValues "a,,b") = "a,,b"
  /\ Forall (fun a => has_char comma a = false) (splitOrValues "a,,b").
Proof.
  split; [reflexivity|].
  exact (split_without_backslash "a,,b" eq_refl).
Defined.

(* ================================================================= *)
(** * Further properties of the parameter compiler *)

Section ParameterMore.

Context {TQ : TypeQueries}.

(** X5. What [searchParamQuery] returns for any value. With no unescaped
    comma it is the array of the queries of the compiled descriptors, in
    their order, for the unescaped value; otherwise it is {bool: {should:
    [...]}} over one such array per alternative, in order, and there are as
    many of them as unescaped commas plus one. *)
Theorem searchParamQuery_shape (sp : SearchParam) (v : string) :
  (unescaped_commas v = 0 ->
   searchParamQuery sp v
   = JArr (map (fun c => typeQueryWithConditions sp c (unescape v)) (compiled sp)))
  /\ (unescaped_commas v <> 0 ->
      exists entries : list JSValue,
        searchParamQuery sp v = JObj [("bool", JObj [("should", JArr entries)])]
        /\ entries
           = map (fun a => JArr (map (fun c => typeQueryWithConditions sp c a)
                                     (compiled sp)))
                 (splitOrValues v)
        /\ List.length entries = unescaped_commas v + 1).
Proof.
  split.
  - intros Hv. rewrite (searchParamQuery_single sp v (unescape v)); [reflexivity|].
    rewrite splitOrValues_segments.
    now apply (segments_no_comma (String.length v)).
  - intros Hv. eexists. split; [|split; [reflexivity|]].
    + unfold searchParamQuery, queryList. rewrite length_map.
      rewrite splitOrValues_segments, (segments_count (String.length v)) by lia.
      destruct (Nat.eqb_spec (unescaped_commas v + 1) 1); [lia | reflexivity].
    + rewrite length_map, splitOrValues_segments.
      now apply (segments_count (String.length v)).
Qed.

(** X6. Two values joined by a comma are searched as the [should] of what
    each is searched as alone, when neither has an unescaped comma of its
    own and the first does not end with a backslash. *)
Theorem searchParamQuery_or (sp : SearchParam) (l r : string) :
  ends_with_backslash l = false ->
  unescaped_commas l = 0 ->
  unescaped_commas r = 0 ->
  searchParamQuery sp (l ++ String comma r)
  = JObj [("bool", JObj [("should", JArr [searchParamQuery sp l;
                                          searchParamQuery sp r])])].
Proof.
  intros Hend Hl Hr.
  assert (Hsl : splitOrValues l = [unescape l])
    by (rewrite splitOrValues_segments;
        now apply (segments_no_comma (String.length l))).
  assert (Hsr : splitOrValues r = [unescape r])
    by (rewrite splitOrValues_segments;
        now apply (segments_no_comma (String.length r))).
  rewrite (searchParamQuery_single sp l _ Hsl), (searchParamQuery_single sp r _ Hsr).
  apply searchParamQuery_pair.
  rewrite splitOrValues_segments, (segments_append_comma (String.length l))
    by (trivial; lia).
  now rewrite <- !splitOrValues_segments, Hsl, Hsr.
Qed.

End ParameterMore.

Lemma searchParamQuery_shape_witness :
  searchParamQuery (TQ := Demo.queries) Demo.cityParam "Lyon\, FR"
  = JArr [typeQueryWithConditions (TQ := Demo.queries) Demo.cityParam
            Demo.familyName "Lyon, FR";
          typeQueryWithConditions (TQ := Demo.queries) Demo.cityParam
            Demo.homeAddress "Lyon, FR"]
  /\ exists entries : list JSValue,
       searchParamQuery (TQ := Demo.queries) Demo.nameParam "a,b,"
       = JObj [("bool", JObj [("should", JArr entries)])]
       /\ entries
          = map (fun a => JArr (map (fun c =>
                                       typeQueryWithConditions (TQ := Demo.queries)
                                         Demo.nameParam c a)
                                    (compiled Demo.nameParam)))
                (splitOrValues "a,b,")
       /\ List.length entries = unescaped_commas "a,b," + 1.
Proof.
  split.
  - exact (proj1 (searchParamQuery_shape (TQ := Demo.queries)
                    Demo.cityParam "Lyon\, FR") eq_refl).
  - refine (proj2 (searchParamQuery_shape (TQ := Demo.queries)
                     Demo.nameParam "a,b,") _).
    discriminate.
Defined.

Lemma searchParamQuery_or_witness :
  searchParamQuery (TQ := Demo.queries) Demo.nameParam "Smith,Doe\, John"
  = JObj [("bool",
           JObj [("should",
                  JArr [searchParamQuery (TQ := Demo.queries) Demo.nameParam "Smith";
                        searchParamQuery (TQ := Demo.queries) Demo.nameParam
                          "Doe\, John"])])].
Proof.
  exact (searchParamQuery_or (TQ := Demo.queries) Demo.nameParam
           "Smith" "Doe\, John" eq_refl eq_refl eq_refl).
Defined.

(* ================================================================= *)
(** * Further properties of the normalizer and of the request compiler *)

Section RequestMore.

Context {TQ : TypeQueries}.
Variable NON_SEARCHABLE_PARAMETERS : list string.
Variable registry : FHIRSearchParametersRegistry.

Local Abbreviation compile :=
  (buildQueryForAllSearchParameters NON_SEARCHABLE_PARAMETERS registry).
Local Abbreviation kept := (searchable_key NON_SEARCHABLE_PARAMETERS).
Local Abbreviation live := (looked_up NON_SEARCHABLE_PARAMETERS).

Lemma all_well_formed (qp : list (string * JSValue)) :
  (forall k v, In (k, v) qp -> well_formed_value v = true) ->
  forallb (fun e => well_formed_value (snd e)) qp = true.
Proof.
  intros H. apply forallb_forall. intros [k v] Hin. exact (H k v Hin).
Qed.

Lemma filter_id {A} (f : A -> bool) (l : list A) :
  (forall x, In x l -> f x = true) -> filter f l = l.
Proof.
  induction l as [|x l IH]; intros H; [reflexivity|]. cbn [filter].
  rewrite (H x (or_introl eq_refl)), IH; [reflexivity|].
  intros y Hy. apply H. now right.
Qed.

Lemma stored_key_iff {V} (k : string) (v : V) :
  stored (k, v) = true <-> k <> "__proto__".
Proof.
  unfold stored. cbn [fst]. rewrite negb_true_iff. apply String.eqb_neq.
Qed.

Lemma live_iff (k : string) (v : JSValue) :
  live (k, v) = true
  <-> k <> "__proto__" /\ JS.array_includes NON_SEARCHABLE_PARAMETERS k = false.
Proof.
  unfold looked_up, searchable_key. rewrite andb_true_iff, stored_key_iff.
  cbn [fst]. now rewrite negb_true_iff.
Qed.

(** Normalization of an object with well-formed values, entry by entry. *)
Lemma normalizeQueryParams_object (qp : list (string * JSValue)) :
  NoDup (map fst qp) ->
  forallb (fun e => well_formed_value (snd e)) qp = true ->
  normalizeQueryParams qp = Ok (map normalized_entry (filter stored qp)).
Proof.
  intros Hnd Hwf. unfold normalizeQueryParams.
  rewrite normalizeEntries_wf by (trivial; intros ? _ []). reflexivity.
Qed.

Lemma filter_normalized (qp : list (string * JSValue)) :
  filter (searchable NON_SEARCHABLE_PARAMETERS) (map normalized_entry qp)
  = map normalized_entry (filter kept qp).
Proof.
  induction qp as [|e qp IH]; [reflexivity|]. cbn [map filter].
  unfold searchable at 1, searchable_key at 1, normalized_entry at 1. cbn [fst].
  destruct (negb (JS.array_includes NON_SEARCHABLE_PARAMETERS (fst e)));
    cbn [map]; now rewrite IH.
Qed.

Lemma filter_live (qp : list (string * JSValue)) :
  filter kept (filter stored qp) = filter live qp.
Proof.
  induction qp as [|e qp IH]; [reflexivity|]. cbn [filter]. unfold looked_up at 1.
  destruct (stored e); cbn [filter andb]; [|exact IH].
  destruct (kept e); now rewrite IH.
Qed.

Lemma resolved_normalized (rt : string) (l : list (string * JSValue)) :
  forallb (resolved registry rt) (map normalized_entry l)
  = forallb (fun e => resolved registry rt (normalized_entry e)) l.
Proof. induction l as [|e l IH]; simpl; [reflexivity | now rewrite IH]. Qed.

(** X7. Normalization is idempotent: the normalized parameters, read back
    as query parameters (every value an array of strings), normalize to
    themselves. *)
Theorem normalizeQueryParams_idempotent (qp : list (string * JSValue))
    (n : list (string * list string)) :
  NoDup (map fst qp) ->
  normalizeQueryParams qp = Ok n ->
  normalizeQueryParams (map as_query_param n) = Ok n.
Proof.
  intros Hnd Hn.
  pose proof (normalizeEntries_ok_wf _ _ _ Hn) as Hwf.
  rewrite (normalizeQueryParams_object qp Hnd Hwf) in Hn. injection Hn as <-.
  rewrite normalizeQueryParams_object.
  - rewrite filter_id.
    + rewrite !map_map. f_equal. apply map_ext. intros [k v].
      unfold normalized_entry, as_query_param. cbn [fst snd].
      now rewrite strings_of_array.
    + intros x Hx. rewrite map_map in Hx.
      apply in_map_iff in Hx as ([k v] & <- & Hin).
      apply filter_In in Hin as [_ Hst]. exact Hst.
  - rewrite !map_map. cbn [fst as_query_param normalized_entry].
    now apply NoDup_keys_filter.
  - rewrite !map_map. apply forallb_forall. intros x Hx.
    apply in_map_iff in Hx as (e & <- & _).
    unfold as_query_param. cbn [snd well_formed_value].
    now rewrite all_strings_map.
Qed.

(** X8. A value that is neither a string nor an array of strings, under
    any name (searchable or not), makes the compilation throw the
    normalizer's error for the first such entry before the registry is asked
    anything, whatever the registry and the filters. *)
Theorem malformed_entry_fails_first (request : TypeSearchRequest)
    (additionalFilters : option (list JSValue))
    (good rest : list (string * JSValue)) (k : string) (v : JSValue) :
  queryParams request = good ++ (k, v) :: rest ->
  forallb (fun e => well_formed_value (snd e)) good = true ->
  well_formed_value v = false ->
  compile request additionalFilters
  = ([], Throw (InvalidSearchParameterError
                  ("Invalid search parameter: '" ++ k ++ "'")%string)).
Proof.
  intros Hqp Hgood Hv. rewrite buildQuery_of_search.
  rewrite (searchRequestQuery_malformed NON_SEARCHABLE_PARAMETERS registry request
             (InvalidSearchParameterError
                ("Invalid search parameter: '" ++ k ++ "'")%string));
    [reflexivity|].
  unfold normalizeQueryParams. rewrite Hqp. now apply normalizeEntries_throw.
Qed.

(** The request compiler on an object with well-formed values: it runs the
    [flatMap] on the entries that are stored and searchable, normalized. *)
Lemma searchRequestQuery_object (request : TypeSearchRequest) :
  NoDup (map fst (queryParams request)) ->
  forallb (fun e => well_formed_value (snd e)) (queryParams request) = true ->
  searchRequestQuery NON_SEARCHABLE_PARAMETERS registry request
  = flatMapM (searchEntryQuery registry (resourceType request))
             (map normalized_entry (filter live (queryParams request))).
Proof.
  intros Hnd Hwf.
  rewrite (searchRequestQuery_normalized NON_SEARCHABLE_PARAMETERS registry request
             _ (normalizeQueryParams_object _ Hnd Hwf)).
  now rewrite filter_normalized, filter_live.
Qed.

Lemma live_resolved (rt : string) (qp : list (string * JSValue)) :
  (forall k v, In (k, v) qp ->
               JS.array_includes NON_SEARCHABLE_PARAMETERS k = false ->
               k <> "__proto__" ->
               getSearchParameter registry rt k <> None) ->
  forallb (resolved registry rt) (map normalized_entry (filter live qp)) = true.
Proof.
  intros Hres. rewrite resolved_normalized. apply forallb_forall.
  intros [k v] Hin. apply filter_In in Hin as [Hin Hlive].
  apply live_iff in Hlive as [Hk Hs].
  pose proof (Hres k v Hin Hs Hk) as H.
  unfold resolved, normalized_entry. cbn [fst].
  now destruct (getSearchParameter registry rt k).
Qed.

(** The result of the compilation when nothing is malformed or unknown. *)
Lemma compile_resolved_object (request : TypeSearchRequest)
    (additionalFilters : list JSValue) :
  NoDup (map fst (queryParams request)) ->
  (forall k v, In (k, v) (queryParams request) -> well_formed_value v = true) ->
  (forall k v, In (k, v) (queryParams request) ->
               JS.array_includes NON_SEARCHABLE_PARAMETERS k = false ->
               k <> "__proto__" ->
               getSearchParameter registry (resourceType request) k <> None) ->
  compile request (Some additionalFilters)
  = (map (fun e => (resourceType request, fst e))
         (filter live (queryParams request)),
     Ok (JObj [("bool",
                JObj [("filter", JArr additionalFilters);
                      ("must",
                       JArr (flat_map
                               (fun e => entryQueries registry (resourceType request)
                                           (normalized_entry e))
                               (filter live (queryParams request))))])])).
Proof.
  intros Hnd Hwf Hres. rewrite buildQuery_of_search.
  rewrite (searchRequestQuery_object request Hnd (all_well_formed _ Hwf)).
  rewrite flatMapM_resolved by now apply live_resolved.
  rewrite map_map, flat_map_concat_map, map_map, <- flat_map_concat_map.
  reflexivity.
Qed.

(** X9. When every value is a string or an array of strings and the
    registry knows every searchable parameter other than [__proto__], the
    compilation returns; the registry is asked exactly once for each
    searchable parameter other than [__proto__], in entry order, however
    many values the parameter has; and the must list is the concatenation,
    in entry order, of the queries of each of these parameters for its
    values. An own entry [__proto__] is neither looked up nor searched. *)
Theorem compile_well_formed (request : TypeSearchRequest)
    (additionalFilters : list JSValue) :
  NoDup (map fst (queryParams request)) ->
  (forall k v, In (k, v) (queryParams request) -> well_formed_value v = true) ->
  (forall k v, In (k, v) (queryParams request) ->
               JS.array_includes NON_SEARCHABLE_PARAMETERS k = false ->
               k <> "__proto__" ->
               getSearchParameter registry (resourceType request) k <> None) ->
  lookups (compile request (Some additionalFilters))
  = map (fun e => (resourceType request, fst e))
        (filter live (queryParams request))
  /\ outcome (compile request (Some additionalFilters))
     = Ok (JObj [("bool",
                  JObj [("filter", JArr additionalFilters);
                        ("must",
                         JArr (flat_map
                                 (fun e =>
                                    match getSearchParameter registry
                                            (resourceType request) (fst e) with
                                    | Some sp =>
                                        map (searchParamQuery sp) (strings_of (snd e))
                                    | None => []
                                    end)
                                 (filter live (queryParams request))))])]).
Proof.
  intros Hnd Hwf Hres.
  rewrite (compile_resolved_object request additionalFilters Hnd Hwf Hres).
  split; reflexivity.
Qed.

(** X10. The compilation of an object returns a query exactly when every
    value is a string or an array of strings and the registry knows, for
    the resource type, every searchable parameter other than [__proto__]. *)
Theorem compile_succeeds_iff (request : TypeSearchRequest)
    (additionalFilters : option (list JSValue)) :
  NoDup (map fst (queryParams request)) ->
  ((exists q, outcome (compile request additionalFilters) = Ok q)
   <-> (forall k v, In (k, v) (queryParams request) ->
          well_formed_value v = true
          /\ (JS.array_includes NON_SEARCHABLE_PARAMETERS k = false ->
              k <> "__proto__" ->
              getSearchParameter registry (resourceType request) k <> None))).
Proof.
  intros Hnd. rewrite buildQuery_of_search. split.
  - intros [q Hq] k v Hin.
    destruct (normalizeQueryParams (queryParams request)) as [n|e] eqn:Hn.
    2:{ rewrite (searchRequestQuery_malformed _ _ _ _ Hn) in Hq. discriminate. }
    pose proof (normalizeEntries_ok_wf _ _ _ Hn) as Hwf.
    destruct (forallb_forall (fun e => well_formed_value (snd e))
                (queryParams request)) as [Hall _].
    split; [exact (Hall Hwf (k, v) Hin)|].
    intros Hk Hproto Hnone.
    rewrite (searchRequestQuery_object request Hnd Hwf) in Hq.
    destruct (forallb (resolved registry (resourceType request))
                (map normalized_entry (filter live (queryParams request))))
      eqn:Hres.
    + destruct (forallb_forall (resolved registry (resourceType request))
                  (map normalized_entry (filter live (queryParams request))))
        as [Hr _].
      assert (Hin' : In (normalized_entry (k, v))
                        (map normalized_entry (filter live (queryParams request)))).
      { apply in_map, filter_In. split; [exact Hin|]. now apply live_iff. }
      specialize (Hr Hres _ Hin'). unfold resolved, normalized_entry in Hr.
      cbn [fst] in Hr. now rewrite Hnone in Hr.
    + destruct (first_unresolved _ _ _ Hres)
        as (before & entry & after & Hcut & Hb & He).
      rewrite Hcut, (flatMapM_unresolved _ _ _ _ _ Hb He) in Hq. discriminate.
  - intros H.
    assert (Hwf : forallb (fun e => well_formed_value (snd e))
                    (queryParams request) = true)
      by (apply all_well_formed; intros k v Hin; now destruct (H k v Hin)).
    rewrite (searchRequestQuery_object request Hnd Hwf).
    rewrite flatMapM_resolved; [simpl; now eexists|].
    apply live_resolved. intros k v Hin. now destruct (H k v Hin).
Qed.

(** The failure at the first searchable parameter the registry does not
    know, with the look-ups made. *)
Lemma compile_first_unknown (request : TypeSearchRequest)
    (additionalFilters : option (list JSValue))
    (before after : list (string * JSValue)) (p : string) (v : JSValue) :
  NoDup (map fst (queryParams request)) ->
  (forall k w, In (k, w) (queryParams request) -> well_formed_value w = true) ->
  filter live (queryParams request) = before ++ (p, v) :: after ->
  (forall k w, In (k, w) before ->
               getSearchParameter registry (resourceType request) k <> None) ->
  getSearchParameter registry (resourceType request) p = None ->
  compile request additionalFilters
  = (map (fun e => (resourceType request, fst e)) (before ++ [(p, v)]),
     Throw (InvalidSearchParameterError
              ("Invalid search parameter '" ++ p ++ "' for resource type "
                 ++ resourceType request)%string)).
Proof.
  intros Hnd Hwf Hcut Hb Hp. rewrite buildQuery_of_search.
  rewrite (searchRequestQuery_object request Hnd (all_well_formed _ Hwf)).
  rewrite Hcut, map_app. cbn [map].
  rewrite (flatMapM_unresolved registry (resourceType request)
             (map normalized_entry before) (normalized_entry (p, v))
             (map normalized_entry after)).
  - rewrite !map_app, map_map. reflexivity.
  - rewrite resolved_normalized. apply forallb_forall. intros [k w] Hin.
    pose proof (Hb k w Hin) as Hk. unfold resolved, normalized_entry. cbn [fst].
    now destruct (getSearchParameter registry (resourceType request) k).
  - unfold resolved, normalized_entry. cbn [fst]. now rewrite Hp.
Qed.

(** X11. When the values are well formed, the compilation stops at the
    first searchable parameter, other than [__proto__], that the registry
    does not know: the registry has been asked for the searchable parameters
    (other than [__proto__]) up to that one, in order, and for none after
    it, and the error names that parameter and the resource type. *)
Theorem compile_stops_at_first_unknown (request : TypeSearchRequest)
    (additionalFilters : option (list JSValue))
    (before after : list (string * JSValue)) (p : string) (v : JSValue) :
  NoDup (map fst (queryParams request)) ->
  (forall k w, In (k, w) (queryParams request) -> well_formed_value w = true) ->
  filter live (queryParams request) = before ++ (p, v) :: after ->
  (forall k w, In (k, w) before ->
               getSearchParameter registry (resourceType request) k <> None) ->
  getSearchParameter registry (resourceType request) p = None ->
  compile request additionalFilters
  = (map (fun e => (resourceType request, fst e)) (before ++ [(p, v)]),
     Throw (InvalidSearchParameterError
              ("Invalid search parameter '" ++ p ++ "' for resource type "
                 ++ resourceType request)%string)).
Proof. apply compile_first_unknown. Qed.

Lemma queries_without_empty_arrays (rt : string) (qp : list (string * JSValue)) :
  flat_map (fun e => entryQueries registry rt (normalized_entry e)) (filter live qp)
  = flat_map (fun e => entryQueries registry rt (normalized_entry e))
             (filter live (filter (fun e => negb (is_empty_array (snd e))) qp)).
Proof.
  induction qp as [|[k v] qp IH]; [reflexivity|]. cbn [filter snd].
  destruct (is_empty_array v) eqn:Hv; cbn [negb filter].
  - destruct v as [| | | | |[|x l]|]; try discriminate.
    destruct (live (k, JArr [])); [|exact IH].
    cbn [flat_map]. rewrite <- IH.
    unfold entryQueries at 1, normalized_entry at 1.
    cbn [fst snd strings_of strings_of_elems map].
    now destruct (getSearchParameter registry rt k).
  - destruct (live (k, v)); [|exact IH]. cbn [flat_map]. now rewrite IH.
Qed.

(** X12. An empty array is a well-formed value that yields no must entry:
    when nothing is malformed or unknown, the query is the one of the
    request without the entries whose value is the empty array. Their
    parameters, when searchable and other than [__proto__], are looked up
    in the registry all the same. *)
Theorem empty_array_contributes_nothing (request : TypeSearchRequest)
    (additionalFilters : list JSValue) :
  NoDup (map fst (queryParams request)) ->
  (forall k v, In (k, v) (queryParams request) -> well_formed_value v = true) ->
  (forall k v, In (k, v) (queryParams request) ->
               JS.array_includes NON_SEARCHABLE_PARAMETERS k = false ->
               k <> "__proto__" ->
               getSearchParameter registry (resourceType request) k <> None) ->
  outcome (compile request (Some additionalFilters))
  = outcome (compile
               (mkRequest (resourceType request)
                  (filter (fun e => negb (is_empty_array (snd e)))
                          (queryParams request)))
               (Some additionalFilters))
  /\ (forall p, In (p, JArr []) (queryParams request) ->
                JS.array_includes NON_SEARCHABLE_PARAMETERS p = false ->
                p <> "__proto__" ->
                In (resourceType request, p)
                   (lookups (compile request (Some additionalFilters)))).
Proof.
  intros Hnd Hwf Hres.
  rewrite (compile_resolved_object request additionalFilters Hnd Hwf Hres).
  split.
  - rewrite (compile_resolved_object
               (mkRequest (resourceType request)
                  (filter (fun e => negb (is_empty_array (snd e)))
                          (queryParams request)))
               additionalFilters).
    + cbn [outcome snd resourceType queryParams].
      now rewrite <- queries_without_empty_arrays.
    + cbn [queryParams]. now apply NoDup_keys_filter.
    + cbn [queryParams]. intros k v Hin. apply filter_In in Hin as [Hin _].
      exact (Hwf k v Hin).
    + cbn [queryParams resourceType]. intros k v Hin.
      apply filter_In in Hin as [Hin _]. exact (Hres k v Hin).
  - intros p Hin Hp Hproto. cbn [lookups fst].
    apply in_map_iff. exists (p, JArr []). split; [reflexivity|].
    apply filter_In. split; [exact Hin|]. now apply live_iff.
Qed.

(** What normalization makes of the request without its [__proto__]
    entries. *)
Lemma normalizeQueryParams_without_proto (qp : list (string * JSValue)) :
  (forall v, In ("__proto__", v) qp -> well_formed_value v = true) ->
  normalizeQueryParams (filter stored qp) = normalizeQueryParams qp.
Proof.
  intros Hwf. unfold normalizeQueryParams.
  pose proof (normalizeEntries_without_keys
                (fun k => negb (String.eqb k proto_key)) qp []) as H.
  cbn [filter] in H.
  change (fun e : string * JSValue => negb (String.eqb (fst e) proto_key))
    with (@stored JSValue) in H.
  rewrite H.
  - destruct (normalizeEntries qp []) as [n|e] eqn:Hn; [|reflexivity].
    f_equal. apply (normalizeEntries_stored _ _ _ Hn). reflexivity.
  - intros k v Hin Hk. apply negb_false_iff, String.eqb_eq in Hk. subst k.
    now apply Hwf.
Qed.

(** X15. An own entry [__proto__] with a well-formed value is invisible to
    the compilation: the registry is never asked for [__proto__], known or
    not, and the request compiles, for every registry and every filter,
    exactly as the request without that entry. *)
Theorem proto_entry_ignored (request : TypeSearchRequest)
    (additionalFilters : option (list JSValue)) :
  (forall lk : Lookup,
      In lk (lookups (compile request additionalFilters)) ->
      snd lk <> "__proto__")
  /\ ((forall v, In ("__proto__", v) (queryParams request) ->
                 well_formed_value v = true) ->
      compile request additionalFilters
      = compile (mkRequest (resourceType request)
                   (filter stored (queryParams request)))
                additionalFilters).
Proof.
  split.
  - intros lk. rewrite buildQuery_of_search.
    destruct (normalizeQueryParams (queryParams request)) as [n|e] eqn:Hn.
    + rewrite (searchRequestQuery_normalized _ _ _ _ Hn).
      destruct (flatMapM _ _) as [log [must|e]] eqn:Hrun;
        (intros Hin;
         assert (Hlog : In lk (lookups (flatMapM
                          (searchEntryQuery registry (resourceType request))
                          (filter (searchable NON_SEARCHABLE_PARAMETERS) n))))
           by (rewrite Hrun; exact Hin);
         apply flatMapM_lookups in Hlog as ([k vs] & Hentry & ->);
         apply filter_In in Hentry as [Hentry _];
         pose proof (normalizeEntries_stored _ _ _ Hn eq_refl) as Hst;
         rewrite <- Hst in Hentry; apply filter_In in Hentry as [_ Hk];
         now apply stored_key_iff in Hk).
    + rewrite (searchRequestQuery_malformed _ _ _ _ Hn). intros [].
  - intros Hwf. rewrite !buildQuery_of_search.
    pose proof (normalizeQueryParams_without_proto _ Hwf) as Hnorm.
    destruct (normalizeQueryParams (queryParams request)) as [n|e] eqn:Hn.
    + rewrite (searchRequestQuery_normalized _ _ _ _ Hn).
      now rewrite (searchRequestQuery_normalized NON_SEARCHABLE_PARAMETERS registry
                     (mkRequest _ _) _ Hnorm).
    + rewrite (searchRequestQuery_malformed _ _ _ _ Hn).
      now rewrite (searchRequestQuery_malformed NON_SEARCHABLE_PARAMETERS registry
                     (mkRequest _ _) _ Hnorm).
Qed.

Lemma value_pairs_normalized (l : list (string * JSValue)) :
  value_pairs (map normalized_entry l)
  = flat_map (fun e => map (pair (fst e)) (strings_of (snd e))) l.
Proof.
  unfold value_pairs. induction l as [|e l IH]; [reflexivity|].
  cbn [map flat_map]. now rewrite IH.
Qed.

(** X16. Whenever the compilation of an object returns, its output is
    {bool: {filter: additionalFilters, must: [...]}} and the must list holds
    one entry per (parameter, value) pair of the request, taken over the
    searchable parameters other than [__proto__], in entry order and value
    order: the query of that parameter, as the registry resolves it, for
    that value. On empty query parameters the must list is empty; a missing
    third argument stands for no filter. *)
Theorem buildQuery_shape (request : TypeSearchRequest)
    (additionalFilters : list JSValue) :
  (NoDup (map fst (queryParams request)) ->
   forall q : JSValue,
     outcome (compile request (Some additionalFilters)) = Ok q ->
     exists must : list JSValue,
       q = JObj [("bool", JObj [("filter", JArr additionalFilters);
                                ("must", JArr must)])]
       /\ Forall2 (fun pv entry =>
                     exists sp,
                       getSearchParameter registry (resourceType request) (fst pv)
                       = Some sp
                       /\ entry = searchParamQuery sp (snd pv))
                  (request_pairs NON_SEARCHABLE_PARAMETERS (queryParams request))
                  must)
  /\ (queryParams request = [] ->
      compile request (Some additionalFilters)
      = ([], Ok (JObj [("bool", JObj [("filter", JArr additionalFilters);
                                      ("must", JArr [])])])))
  /\ compile request None = compile request (Some []).
Proof.
  split; [|split].
  - intros Hnd q Hq. rewrite buildQuery_of_search in Hq.
    destruct (normalizeQueryParams (queryParams request)) as [n|e] eqn:Hn.
    2:{ rewrite (searchRequestQuery_malformed _ _ _ _ Hn) in Hq. discriminate. }
    pose proof (normalizeEntries_ok_wf _ _ _ Hn) as Hwf.
    rewrite (searchRequestQuery_object request Hnd Hwf) in Hq.
    destruct (forallb (resolved registry (resourceType request))
                (map normalized_entry (filter live (queryParams request))))
      eqn:Hres.
    + rewrite (flatMapM_resolved _ _ _ Hres) in Hq. simpl in Hq.
      injection Hq as <-. eexists. split; [reflexivity|].
      unfold request_pairs. rewrite <- value_pairs_normalized.
      now apply flat_map_entryQueries_pairs.
    + destruct (first_unresolved _ _ _ Hres)
        as (before & entry & after & Hcut & Hb & He).
      rewrite Hcut, (flatMapM_unresolved _ _ _ _ _ Hb He) in Hq. discriminate.
  - intros Hqp. rewrite buildQuery_of_search.
    rewrite (searchRequestQuery_normalized NON_SEARCHABLE_PARAMETERS registry
               request []);
      [reflexivity | now rewrite Hqp].
  - now rewrite !buildQuery_of_search.
Qed.

(** C7. The code on a request whose only parameter is an own [__proto__]:
    for every registry and every filter list the compilation returns
    {bool: {filter: additionalFilters, must: []}} without asking the
    registry: the (parameter, value) pair has no must entry. *)
Theorem buildQuery_proto_pair_has_no_entry (rt : string)
    (additionalFilters : list JSValue) :
  compile (mkRequest rt [("__proto__", JStr "x")]) (Some additionalFilters)
  = ([], Ok (JObj [("bool", JObj [("filter", JArr additionalFilters);
                                  ("must", JArr [])])])).
Proof. reflexivity. Qed.

(** C5, as amended. A request that holds a searchable parameter, other
    than [__proto__], that the registry cannot resolve for its resource type
    never compiles to a query: it fails with [InvalidSearchParameterError].
    When its query parameters pass normalization, the error is raised for
    the first such parameter in entry order, and its message mentions that
    parameter and the resource type. When normalization fails, the error is
    the normalizer's own, naming the first malformed parameter. *)
Theorem unresolved_parameter_rejected (request : TypeSearchRequest)
    (additionalFilters : option (list JSValue)) :
  (forall (p : string) (v : JSValue),
      In (p, v) (queryParams request) ->
      p <> "__proto__" ->
      JS.array_includes NON_SEARCHABLE_PARAMETERS p = false ->
      getSearchParameter registry (resourceType request) p = None ->
      exists msg : string,
        outcome (compile request additionalFilters)
        = Throw (InvalidSearchParameterError msg))
  /\ (forall (before after : list (string * JSValue)) (p : string) (v : JSValue),
        NoDup (map fst (queryParams request)) ->
        (forall k w, In (k, w) (queryParams request) -> well_formed_value w = true) ->
        filter live (queryParams request) = before ++ (p, v) :: after ->
        (forall k w, In (k, w) before ->
                     getSearchParameter registry (resourceType request) k <> None) ->
        getSearchParameter registry (resourceType request) p = None ->
        exists msg : string,
          outcome (compile request additionalFilters)
          = Throw (InvalidSearchParameterError msg)
          /\ msg = ("Invalid search parameter '" ++ p ++ "' for resource type "
                      ++ resourceType request)%string
          /\ mentions msg p
          /\ mentions msg (resourceType request))
  /\ (forall (good rest : list (string * JSValue)) (k : string) (v : JSValue),
        queryParams request = good ++ (k, v) :: rest ->
        forallb (fun e => well_formed_value (snd e)) good = true ->
        well_formed_value v = false ->
        outcome (compile request additionalFilters)
        = Throw (InvalidSearchParameterError
                   ("Invalid search parameter: '" ++ k ++ "'")%string)).
Proof.
  split; [|split].
  - intros p v Hin Hproto Hp Hnone. rewrite buildQuery_of_search.
    destruct (normalizeQueryParams (queryParams request)) as [n|[msg]] eqn:Hn.
    + rewrite (searchRequestQuery_normalized _ _ _ _ Hn).
      assert (Hkey : In p (map fst (filter (searchable NON_SEARCHABLE_PARAMETERS) n))).
      { assert (Hk : In p (map fst n)).
        { apply (normalizeEntries_keys _ _ _ _ Hn). left. split; [|exact Hproto].
          apply (in_map fst) in Hin. exact Hin. }
        apply in_map_iff in Hk as ([p' values] & Hfst & Hk). simpl in Hfst. subst p'.
        apply in_map_iff. exists (p, values). split; [reflexivity|].
        apply filter_In. split; [exact Hk|].
        unfold searchable. simpl. now rewrite Hp. }
      destruct (forallb (resolved registry (resourceType request))
                  (filter (searchable NON_SEARCHABLE_PARAMETERS) n)) eqn:Hres.
      * exfalso. apply in_map_iff in Hkey as ([p' values] & Hfst & Hk).
        simpl in Hfst. subst p'.
        destruct (forallb_forall (resolved registry (resourceType request))
                    (filter (searchable NON_SEARCHABLE_PARAMETERS) n)) as [Hall _].
        specialize (Hall Hres _ Hk). unfold resolved in Hall. simpl in Hall.
        now rewrite Hnone in Hall.
      * destruct (first_unresolved _ _ _ Hres)
          as (before & entry & after & Hcut & Hb & He).
        rewrite Hcut, (flatMapM_unresolved _ _ _ _ _ Hb He). simpl.
        now eexists.
    + rewrite (searchRequestQuery_malformed _ _ _ _ Hn). simpl. now eexists.
  - intros before after p v Hnd Hwf Hcut Hb Hnone.
    rewrite (compile_first_unknown request additionalFilters before after p v
               Hnd Hwf Hcut Hb Hnone).
    cbn [outcome snd]. eexists. split; [reflexivity|]. split; [reflexivity|]. split.
    + apply (mentions_middle "Invalid search parameter '" p).
    + pose proof (mentions_end ("Invalid search parameter '" ++ p
                                  ++ "' for resource type ")
                               (resourceType request)) as H.
      now rewrite !append_assoc in H.
  - intros good rest k v Hqp Hgood Hv. rewrite buildQuery_of_search.
    rewrite (searchRequestQuery_malformed NON_SEARCHABLE_PARAMETERS registry request
               (InvalidSearchParameterError
                  ("Invalid search parameter: '" ++ k ++ "'")%string));
      [reflexivity|].
    unfold normalizeQueryParams. rewrite Hqp. now apply normalizeEntries_throw.
Qed.

End RequestMore.

Lemma normalizeQueryParams_idempotent_witness :
  normalizeQueryParams [("name", JArr [JStr "Smith"]);
                        ("given", JArr [JStr "A"; JStr "B"])]
  = Ok [("name", ["Smith"]); ("given", ["A"; "B"])].
Proof.
  refine (normalizeQueryParams_idempotent
            [("name", JStr "Smith"); ("given", JArr [JStr "A"; JStr "B"])]
            [("name", ["Smith"]); ("given", ["A"; "B"])] _ eq_refl).
  repeat constructor; simpl; intuition discriminate.
Defined.

Lemma malformed_entry_fails_first_witness :
  buildQueryForAllSearchParameters (TQ := Demo.queries) Demo.nonSearchable
    Demo.registry
    (mkRequest "Patient" [("name", JStr "Smith"); ("_count", JArr [JNum 10])])
    None
  = ([], Throw (InvalidSearchParameterError "Invalid search parameter: '_count'")).
Proof.
  exact (malformed_entry_fails_first (TQ := Demo.queries) Demo.nonSearchable
           Demo.registry
           (mkRequest "Patient" [("name", JStr "Smith"); ("_count", JArr [JNum 10])])
           None [("name", JStr "Smith")] [] "_count" (JArr [JNum 10])
           eq_refl eq_refl eq_refl).
Defined.

Lemma compile_well_formed_witness :
  lookups (buildQueryForAllSearchParameters (TQ := Demo.queries)
             Demo.nonSearchable Demo.registry
             (mkRequest "Patient"
                [("name", JArr [JStr "Smith"; JStr "Jones"]);
                 ("_count", JStr "10");
                 ("__proto__", JStr "x");
                 ("address-city", JStr "Paris")])
             (Some []))
  = [("Patient", "name"); ("Patient", "address-city")]
  /\ outcome (buildQueryForAllSearchParameters (TQ := Demo.queries)
                Demo.nonSearchable Demo.registry
                (mkRequest "Patient"
                   [("name", JArr [JStr "Smith"; JStr "Jones"]);
                    ("_count", JStr "10");
                    ("__proto__", JStr "x");
                    ("address-city", JStr "Paris")])
                (Some []))
     = Ok (JObj [("bool",
                  JObj [("filter", JArr []);
                        ("must",
                         JArr [searchParamQuery (TQ := Demo.queries)
                                 Demo.nameParam "Smith";
                               searchParamQuery (TQ := Demo.queries)
                                 Demo.nameParam "Jones";
                               searchParamQuery (TQ := Demo.queries)
                                 Demo.cityParam "Paris"])])]).
Proof.
  refine (compile_well_formed (TQ := Demo.queries) Demo.nonSearchable Demo.registry
            (mkRequest "Patient"
               [("name", JArr [JStr "Smith"; JStr "Jones"]);
                ("_count", JStr "10");
                ("__proto__", JStr "x");
                ("address-city", JStr "Paris")])
            [] _ _ _).
  - repeat constructor; simpl; intuition discriminate.
  - intros k v [H|[H|[H|[H|[]]]]]; injection H as <- <-; reflexivity.
  - intros k v [H|[H|[H|[H|[]]]]] Hk Hproto; injection H as <- <-;
      try discriminate Hk; try (exfalso; now apply Hproto); discriminate.
Defined.

Lemma compile_succeeds_iff_witness :
  exists q,
    outcome (buildQueryForAllSearchParameters (TQ := Demo.queries)
               Demo.nonSearchable Demo.registry Demo.request None) = Ok q.
Proof.
  refine (proj2 (compile_succeeds_iff (TQ := Demo.queries) Demo.nonSearchable
                   Demo.registry Demo.request None _) _).
  - repeat constructor; simpl; intuition discriminate.
  - intros k v [H|[H|[]]]; injection H as <- <-;
      (split; [reflexivity | intros Hk _; try discriminate Hk; discriminate]).
Defined.

Lemma compile_stops_at_first_unknown_witness :
  buildQueryForAllSearchParameters (TQ := Demo.queries) Demo.nonSearchable
    Demo.registry
    (mkRequest "Patient"
       [("name", JStr "Smith"); ("_count", JStr "10"); ("foo", JStr "1");
        ("baz", JStr "2")])
    None
  = ([("Patient", "name"); ("Patient", "foo")],
     Throw (InvalidSearchParameterError
              "Invalid search parameter 'foo' for resource type Patient")).
Proof.
  refine (compile_stops_at_first_unknown (TQ := Demo.queries) Demo.nonSearchable
            Demo.registry
            (mkRequest "Patient"
               [("name", JStr "Smith"); ("_count", JStr "10"); ("foo", JStr "1");
                ("baz", JStr "2")])
            None [("name", JStr "Smith")] [("baz", JStr "2")] "foo" (JStr "1")
            _ _ eq_refl _ eq_refl).
  - repeat constructor; simpl; intuition discriminate.
  - intros k w [H|[H|[H|[H|[]]]]]; injection H as <- <-; reflexivity.
  - intros k w [H|[]]; injection H as <- <-; discriminate.
Defined.

Lemma empty_array_contributes_nothing_witness :
  outcome (buildQueryForAllSearchParameters (TQ := Demo.queries)
             Demo.nonSearchable Demo.registry
             (mkRequest "Patient" [("name", JArr []); ("address-city", JStr "Paris")])
             (Some []))
  = outcome (buildQueryForAllSearchParameters (TQ := Demo.queries)
               Demo.nonSearchable Demo.registry
               (mkRequest "Patient" [("address-city", JStr "Paris")])
               (Some []))
  /\ (forall p,
         In (p, JArr []) [("name", JArr []); ("address-city", JStr "Paris")] ->
         JS.array_includes Demo.nonSearchable p = false ->
         p <> "__proto__" ->
         In ("Patient", p)
            (lookups (buildQueryForAllSearchParameters (TQ := Demo.queries)
                        Demo.nonSearchable Demo.registry
                        (mkRequest "Patient"
                           [("name", JArr []); ("address-city", JStr "Paris")])
                        (Some [])))).
Proof.
  refine (empty_array_contributes_nothing (TQ := Demo.queries) Demo.nonSearchable
            Demo.registry
            (mkRequest "Patient" [("name", JArr []); ("address-city", JStr "Paris")])
            [] _ _ _).
  - repeat constructor; simpl; intuition discriminate.
  - intros k v [H|[H|[]]]; injection H as <- <-; reflexivity.
  - intros k v [H|[H|[]]] _ _; injection H as <- <-; discriminate.
Defined.

Lemma proto_entry_ignored_witness :
  buildQueryForAllSearchParameters (TQ := Demo.queries) Demo.nonSearchable
    Demo.registry
    (mkRequest "Patient" [("__proto__", JStr "x"); ("name", JStr "Smith")]) None
  = buildQueryForAllSearchParameters (TQ := Demo.queries) Demo.nonSearchable
      Demo.registry (mkRequest "Patient" [("name", JStr "Smith")]) None.
Proof.
  refine (proj2 (proto_entry_ignored (TQ := Demo.queries) Demo.nonSearchable
                   Demo.registry
                   (mkRequest "Patient"
                      [("__proto__", JStr "x"); ("name", JStr "Smith")])
                   None) _).
  intros v [H|[H|[]]]; [injection H as <-; reflexivity | discriminate H].
Defined.

Lemma unresolved_parameter_rejected_witness :
  (exists msg : string,
      outcome (buildQueryForAllSearchParameters (TQ := Demo.queries)
                 Demo.nonSearchable Demo.registry Demo.unknownRequest None)
      = Throw (InvalidSearchParameterError msg)
      /\ msg = "Invalid search parameter 'foo' for resource type Patient"
      /\ mentions msg "foo"
      /\ mentions msg "Patient")
  /\ outcome (buildQueryForAllSearchParameters (TQ := Demo.queries)
                Demo.nonSearchable Demo.registry Demo.nestedRequest None)
     = Throw (InvalidSearchParameterError "Invalid search parameter: 'bar'").
Proof.
  split.
  - refine (proj1 (proj2 (unresolved_parameter_rejected (TQ := Demo.queries)
                            Demo.nonSearchable Demo.registry Demo.unknownRequest None))
                  [] [] "foo" (JStr "1") _ _ eq_refl _ eq_refl).
    + repeat constructor; simpl; intuition discriminate.
    + intros k w [H|[]]; injection H as <- <-; reflexivity.
    + intros k w [].
  - exact (proj2 (proj2 (unresolved_parameter_rejected (TQ := Demo.queries)
                           Demo.nonSearchable Demo.registry Demo.nestedRequest None))
                 [("foo", JStr "1")] [] "bar" (JObj [("key", JStr "v")])
                 eq_refl eq_refl eq_refl).
Defined.

Lemma buildQuery_shape_witness :
  exists must : list JSValue,
    JObj [("bool",
           JObj [("filter", JArr [JNull]);
                 ("must",
                  JArr [searchParamQuery (TQ := Demo.queries) Demo.nameParam
                          "Smith,Jones"])])]
    = JObj [("bool", JObj [("filter", JArr [JNull]); ("must", JArr must)])]
    /\ Forall2 (fun pv entry =>
                  exists sp,
                    getSearchParameter Demo.registry (resourceType Demo.request)
                      (fst pv) = Some sp
                    /\ entry = searchParamQuery (TQ := Demo.queries) sp (snd pv))
               (request_pairs Demo.nonSearchable (queryParams Demo.request))
               must.
Proof.
  refine (proj1 (buildQuery_shape (TQ := Demo.queries) Demo.nonSearchable
                   Demo.registry Demo.request [JNull]) _ _ eq_refl).
  repeat constructor; simpl; intuition discriminate.
Defined.
